(** * Duplicate Finder: perceptual hashing and seed-first clustering

    A shallow embedding of [src/tools/DuplicateFinder.tsx]: the average-hash
    fingerprint ([generateImageHash]), the Hamming similarity
    ([calculateSimilarity]), the greedy seed-first clusterer
    ([findDuplicates]) and the batch handler ([handleFiles]).

    JavaScript numbers are IEEE 754 binary64 values; they are modelled by
    Rocq's primitive floats, which have the same arithmetic (round to nearest,
    ties to even), so every rounding of the source is present in the model. *)

From Stdlib Require Import Floats ZArith QArith Uint63 String Ascii List Lia.
From Stdlib.Strings Require Import Byte.
From stdpp Require Import base gmap sets list sorting.

Set Warnings "-inexact-float,-clear-no-such-hyp".
Local Open Scope float_scope.

(** ** Numbers *)

(** A JS integer-valued number (an array length, a counter). Exact below
    2^53, far above any length met here. *)
Definition num (z : Z) : float := PrimFloat.of_uint63 (Uint63.of_Z z).

(** An entry of a [Uint8ClampedArray] read as a number. *)
Definition byte_num (b : byte) : float := num (Z.of_N (Byte.to_N b)).

(** ** Fingerprint generator *)

(** One canvas sample; [ImageData.data] stores the samples in row-major scan
    order as consecutive R, G, B, A bytes. *)
Record RGBA := { red : byte; green : byte; blue : byte; alpha : byte }.

Definition imageData (grid : list RGBA) : list byte :=
  flat_map (fun p => [red p; green p; blue p; alpha p]) grid.

(** [pixels[i] * 0.299 + pixels[i + 1] * 0.587 + pixels[i + 2] * 0.114] *)
Definition gray_of (r g b : float) : float :=
  r * 0.299 + g * 0.587 + b * 0.114.

(** The [for (let i = 0; i < pixels.length; i += 4)] loop: the list of
    [gray] values pushed to [grayscale]. A read past the end of the array is
    [undefined], whose product is NaN. *)
Fixpoint grayscale (pixels : list byte) : list float :=
  match pixels with
  | [] => []
  | r :: g :: b :: _ :: rest =>
      gray_of (byte_num r) (byte_num g) (byte_num b) :: grayscale rest
  | [r; g; b] => [gray_of (byte_num r) (byte_num g) (byte_num b)]
  | [r; g] => [gray_of (byte_num r) (byte_num g) nan]
  | [r] => [gray_of (byte_num r) nan nan]
  end.

(** [total += gray], from [let total = 0], in scan order. *)
Definition total_of (gs : list float) : float :=
  fold_left (fun total gray => total + gray) gs 0.

(** [const average = total / grayscale.length] *)
Definition average_of (gs : list float) : float :=
  total_of gs / num (Z.of_nat (length gs)).

(** [gray >= average ? '1' : '0'] *)
Definition hash_bit (average gray : float) : ascii :=
  if average <=? gray then "1"%char else "0"%char.

(** [hash += ...] over [grayscale], from [let hash = '']. *)
Definition hash_bits (average : float) (gs : list float) : string :=
  fold_left (fun hash gray => (hash ++ String (hash_bit average gray) "")%string)
            gs ""%string.

(** The body of [img.onload] in [generateImageHash], from the bytes that
    [ctx.getImageData(0, 0, size, size).data] returned. *)
Definition hashPixels (pixels : list byte) : string :=
  let gs := grayscale pixels in
  hash_bits (average_of gs) gs.

(** ** Similarity *)

(** The loop of [calculateSimilarity]: [hash1[i] !== hash2[i]] compares the
    characters at position [i]; past the end of [hash2] the read is
    [undefined], which differs from every character. *)
Definition differences (hash1 hash2 : string) : nat :=
  fold_left
    (fun d i => if decide (String.get i hash1 = String.get i hash2) then d else S d)
    (seq 0 (String.length hash1)) 0%nat.

Definition calculateSimilarity (hash1 hash2 : string) : float :=
  let len := Z.of_nat (String.length hash1) in
  (num (len - Z.of_nat (differences hash1 hash2)) / num len) * 100.

(** ** Records *)

Record File := {
  file_name : string;
  file_type : string;
  file_size : nat;
  file_content : list byte
}.

Record ImageInfo := {
  info_width : nat;
  info_height : nat;
  info_size : nat;
  info_type : string;
  info_name : string
}.

(** Object URLs are opaque; the [n]-th call of [URL.createObjectURL] yields
    the handle [n]. *)
Record ImageWithHash := {
  file : File;
  url : nat;
  info : ImageInfo;
  hash : string
}.

Record DuplicateGroup := {
  group_hash : string;
  images : list ImageWithHash
}.

(** ** Duplicate clusterer *)

(** An element of [imageList] together with its index: [imageList[j]] is an
    object reference, and the index is what tells two references apart. *)
Definition Entry : Type := nat * ImageWithHash.

Definition entries (imageList : list ImageWithHash) : list Entry :=
  imap pair imageList.

(** A group under construction, with the positions of its members kept. *)
Record Cluster := {
  cluster_hash : string;
  members : list Entry
}.

Definition group_of (c : Cluster) : DuplicateGroup :=
  {| group_hash := cluster_hash c; images := (members c).*2 |}.

Section Clusterer.
(** The source compares against the literal [90]; the loop is written once
    for any threshold and instantiated at [90] below. *)
Variable threshold : float.

(** One iteration of the inner loop, [j] ranging over the indices after
    [i], with [seed = imageList[i]]. *)
Definition scan_step (seed : ImageWithHash)
    (st : list Entry * gset nat) (e : Entry) : list Entry * gset nat :=
  let '(group, processed) := st in
  if decide (e.1 ∈ processed) then st
  else
    let similarity := calculateSimilarity (hash seed) (hash e.2) in
    if threshold <=? similarity
    then (group ++ [e], {[ e.1 ]} ∪ processed)
    else st.

(** The outer loop over [i]; [todo] holds the entries from index [i] on,
    so the inner loop runs over its tail. *)
Fixpoint cluster_loop (todo : list Entry) (groups : list Cluster)
    (processed : gset nat) : list Cluster :=
  match todo with
  | [] => groups
  | (i, seed) :: rest =>
      if decide (i ∈ processed) then cluster_loop rest groups processed
      else
        let '(group, processed') :=
          fold_left (scan_step seed) rest ([(i, seed)], {[ i ]} ∪ processed) in
        if (1 <? length group)%nat
        then cluster_loop rest
               (groups ++ [{| cluster_hash := hash seed; members := group |}])
               processed'
        else cluster_loop rest groups processed'
  end.

Definition clusters (imageList : list ImageWithHash) : list Cluster :=
  cluster_loop (entries imageList) [] ∅.

Definition findDuplicatesAt (imageList : list ImageWithHash)
    : list DuplicateGroup :=
  group_of <$> clusters imageList.
End Clusterer.

(** [findDuplicates] as the source has it: [if (similarity >= 90)]. *)
Definition findDuplicates : list ImageWithHash -> list DuplicateGroup :=
  findDuplicatesAt 90.

(** ** Batch handler *)

(** What the browser makes of a file: [img.onerror], or [img.onload] with the
    image's dimensions and, unless [canvas.getContext('2d')] is null, the
    samples that [drawImage(img, 0, 0, 8, 8)] followed by [getImageData]
    yields. The decoder is external to the program. *)
Inductive Decoded :=
  | LoadError
  | Loaded (width height : nat) (canvas : option (list RGBA)).

(** A settled promise. *)
Inductive Outcome (A : Type) :=
  | Resolved (a : A)
  | Rejected (reason : string).
Arguments Resolved {A} a.
Arguments Rejected {A} reason.

(** Asynchronous steps run one after another ([await]); the only state they
    share is the count of object URLs handed out so far. *)
Definition Async (A : Type) : Type := nat -> Outcome A * nat.

Definition resolve {A} (a : A) : Async A := fun n => (Resolved a, n).
Definition reject {A} (reason : string) : Async A := fun n => (Rejected reason, n).
Definition await {A B} (m : Async A) (k : A -> Async B) : Async B :=
  fun n =>
    match m n with
    | (Resolved a, n') => k a n'
    | (Rejected reason, n') => (Rejected reason, n')
    end.
Definition createObjectURL : Async nat := fun n => (Resolved n, S n).

Notation "'let*' x := m 'in' k" := (await m (fun x => k))
  (at level 10, x name, m at level 100, k at level 200).

(** The component state that [handleFiles] reads and writes, with the
    messages it shows. The progress percentage and the drag flag are display
    only and are left out. *)
Record State := {
  st_images : list ImageWithHash;
  st_duplicateGroups : list DuplicateGroup;
  st_isProcessing : bool;
  st_alerts : list string;
  st_console : list string;
  st_urls : nat
}.

Section Browser.
Variable decode : File -> Decoded.

(** [getImageInfo] of [utils/imageProcessing.ts]. *)
Definition getImageInfo (f : File) : Async ImageInfo :=
  let* _ := createObjectURL in
  match decode f with
  | Loaded width height _ =>
      resolve {| info_width := width; info_height := height;
                 info_size := file_size f; info_type := file_type f;
                 info_name := file_name f |}
  | LoadError => reject "Failed to load image"
  end.

Definition generateImageHash (f : File) : Async string :=
  let* _ := createObjectURL in
  match decode f with
  | Loaded _ _ (Some grid) => resolve (hashPixels (imageData grid))
  | Loaded _ _ None => reject "Failed to get canvas context"
  | LoadError => reject "Failed to load image"
  end.

(** The [for] loop inside the [try] block of [handleFiles]; a rejected
    [await] leaves the loop. *)
Fixpoint process_files (imageFiles : list File)
    (newImages : list ImageWithHash) : Async (list ImageWithHash) :=
  match imageFiles with
  | [] => resolve newImages
  | f :: rest =>
      let* u := createObjectURL in
      let* i := getImageInfo f in
      let* h := generateImageHash f in
      process_files rest
        (newImages ++ [{| file := f; url := u; info := i; hash := h |}])
  end.

Definition is_image (f : File) : bool := String.prefix "image/" (file_type f).

Definition handleFiles (selectedFiles : list File) (s : State) : State :=
  let imageFiles := List.filter is_image selectedFiles in
  match imageFiles with
  | [] =>
      {| st_images := st_images s;
         st_duplicateGroups := st_duplicateGroups s;
         st_isProcessing := st_isProcessing s;
         st_alerts := st_alerts s ++ ["Please select image files"%string];
         st_console := st_console s;
         st_urls := st_urls s |}
  | _ :: _ =>
      match process_files imageFiles [] (st_urls s) with
      | (Resolved newImages, n) =>
          let allImages := st_images s ++ newImages in
          {| st_images := allImages;
             st_duplicateGroups := findDuplicates allImages;
             st_isProcessing := false;
             st_alerts := st_alerts s;
             st_console := st_console s;
             st_urls := n |}
      | (Rejected reason, n) =>
          {| st_images := st_images s;
             st_duplicateGroups := st_duplicateGroups s;
             st_isProcessing := false;
             st_alerts := st_alerts s ++ ["Error processing some images"%string];
             st_console := st_console s ++ [reason];
             st_urls := n |}
      end
  end.
End Browser.

(** ** The other handlers of the component *)

(** [removeImage(index)]. On an index past the end, [newImages[index].url]
    reads a property of [undefined] and throws before any state is set:
    [None]. Otherwise [splice(index, 1)] drops that one record and the groups
    are recomputed. *)
Definition removeImage (index : nat) (s : State) : option State :=
  match st_images s !! index with
  | None => None
  | Some _ =>
      let newImages := delete index (st_images s) in
      Some {| st_images := newImages;
              st_duplicateGroups := findDuplicates newImages;
              st_isProcessing := st_isProcessing s;
              st_alerts := st_alerts s;
              st_console := st_console s;
              st_urls := st_urls s |}
  end.

Definition handleReset (s : State) : State :=
  {| st_images := [];
     st_duplicateGroups := [];
     st_isProcessing := st_isProcessing s;
     st_alerts := st_alerts s;
     st_console := st_console s;
     st_urls := st_urls s |}.

(** [duplicateGroups.reduce((acc, g) => acc + g.images.length - 1, 0)]; the
    counts are integers far below 2^53, on which the arithmetic of numbers is
    that of the integers. *)
Definition duplicateCount (s : State) : Z :=
  fold_left (fun acc g => (acc + Z.of_nat (length (images g)) - 1)%Z)
            (st_duplicateGroups s) 0%Z.

(** [images.length - duplicateGroups.reduce(...)] *)
Definition uniqueCount (s : State) : Z :=
  (Z.of_nat (length (st_images s)) - duplicateCount s)%Z.

(** What the user does to the component, one handler at a time. *)
Inductive Action :=
  | SelectFiles (selectedFiles : list File)
  | Remove (index : nat)
  | Reset.

(** A handler that throws leaves the state as it was. *)
Definition act (decode : File -> Decoded) (s : State) (a : Action) : State :=
  match a with
  | SelectFiles selectedFiles => handleFiles decode selectedFiles s
  | Remove index => default s (removeImage index s)
  | Reset => handleReset s
  end.

(** The state after a sequence of actions on a freshly mounted component. *)
Definition session (decode : File -> Decoded) (actions : list Action) : State :=
  fold_left (act decode) actions
    {| st_images := []; st_duplicateGroups := []; st_isProcessing := false;
       st_alerts := []; st_console := []; st_urls := 0 |}.

(** ** The hooks of the application shell *)

(** [toggleFavorite] of [hooks/useFavorites.ts], as the update of the list:
    [prev.includes(tool) ? prev.filter(t => t !== tool) : [...prev, tool]]. *)
Definition toggleFavorite (tool : string) (prev : list string) : list string :=
  if bool_decide (tool ∈ prev)
  then filter (fun t => t ≠ tool) prev
  else prev ++ [tool].

(** [favorites.includes(tool)] *)
Definition isFavorite (favorites : list string) (tool : string) : bool :=
  bool_decide (tool ∈ favorites).

Definition MAX_RECENT : nat := 6.

(** [addRecent] of [hooks/useRecentlyUsed.ts], as the update of the list:
    nothing for ['home'], else
    [[tool, ...prev.filter(t => t !== tool)].slice(0, MAX_RECENT)]. *)
Definition addRecent (tool : string) (prev : list string) : list string :=
  if bool_decide (tool = "home"%string) then prev
  else take MAX_RECENT (tool :: filter (fun t => t ≠ tool) prev).

(** ** The run of the clusterer as a relation *)

(** The test of the inner loop on entry [e]: not yet processed, and within
    the threshold of the seed. *)
Definition is_match (T : float) (seed : ImageWithHash) (processed : gset nat)
    (e : Entry) : Prop :=
  (e.1 ∉ processed) ∧ (T <=? calculateSimilarity (hash seed) (hash e.2)) = true.

#[global] Instance is_match_dec T seed processed e :
  Decision (is_match T seed processed e).
Proof. unfold is_match. apply _. Defined.

(** [Run T todo processed out]: from the entries [todo] still to visit and
    the set [processed], the outer loop appends the clusters [out]. *)
Inductive Run (T : float) : list Entry -> gset nat -> list Cluster -> Prop :=
  | Run_done processed : Run T [] processed []
  | Run_skip i x rest processed out :
      i ∈ processed ->
      Run T rest processed out ->
      Run T ((i, x) :: rest) processed out
  | Run_group i x rest processed ms out :
      i ∉ processed ->
      ms = filter (is_match T x processed) rest ->
      ms ≠ [] ->
      Run T rest ({[ i ]} ∪ processed ∪ list_to_set ms.*1) out ->
      Run T ((i, x) :: rest) processed
        ({| cluster_hash := hash x; members := (i, x) :: ms |} :: out)
  | Run_unique i x rest processed out :
      i ∉ processed ->
      filter (is_match T x processed) rest = [] ->
      Run T rest ({[ i ]} ∪ processed) out ->
      Run T ((i, x) :: rest) processed out.

(** The positions that the clusters [out] hold. *)
Definition grouped (out : list Cluster) : list nat :=
  (concat (members <$> out)).*1.

(** [e1] and [e2] are not duplicates of each other at threshold [T]. *)
Definition apart (T : float) (e1 e2 : Entry) : Prop :=
  (T <=? calculateSimilarity (hash e1.2) (hash e2.2)) ≠ true.

(** The seed of each cluster: its first member. *)
Definition seeds (out : list Cluster) : list Entry :=
  omap (fun c => head (members c)) out.

(** The input positions behind each returned group, group by group. *)
Definition positions (T : float) (imageList : list ImageWithHash)
    : list (list nat) :=
  (fun c => (members c).*1) <$> clusters T imageList.

(** [located imageList g ps]: the members of group [g] are, one by one, the
    records of [imageList] at the positions [ps]. *)
Definition located (imageList : list ImageWithHash) (g : DuplicateGroup)
    (ps : list nat) : Prop :=
  Forall2 (fun img j => imageList !! j = Some img) (images g) ps.

(** Shape of a cluster: a seed, at least one more member, every member
    within the threshold of the seed, all taken from [todo] in order. *)
Definition cluster_ok (T : float) (todo : list Entry) (c : Cluster) : Prop :=
  ∃ i x ms,
    c = {| cluster_hash := hash x; members := (i, x) :: ms |} ∧
    ms ≠ [] ∧
    Forall (fun e => (T <=? calculateSimilarity (hash x) (hash e.2)) = true) ms ∧
    (i, x) :: ms `sublist_of` todo.

(** ** The specification's wording *)

(** Hamming distance: the count of positions at which two equal-length bit
    sequences differ. *)
Fixpoint hamming (a b : string) : nat :=
  match a, b with
  | String c a', String d b' =>
      ((if decide (c = d) then 0 else 1) + hamming a' b')%nat
  | _, _ => 0%nat
  end.

(** The rational number that a finite binary64 value stands for. *)
Definition exact_value (x : float) : option Q :=
  match Prim2SF x with
  | S754_zero _ => Some 0%Q
  | S754_finite s m e =>
      Some ((if s then Qopp else id) (inject_Z (Z.pos m) * Qpower 2 e)%Q)
  | _ => None
  end.

(** [x] is exactly the rational [q]. *)
Definition is_exactly (x : float) (q : Q) : bool :=
  match exact_value x with
  | Some v => Qeq_bool v q
  | None => false
  end.

(** [((length - d) / length) * 100] as a rational. *)
Definition percentage (len d : nat) : Q :=
  ((inject_Z (Z.of_nat len - Z.of_nat d) / inject_Z (Z.of_nat len)) * 100)%Q.

(** [luminance = 0.299*R + 0.587*G + 0.114*B], alpha ignored. *)
Definition luminance (p : RGBA) : float :=
  0.299 * byte_num (red p) + 0.587 * byte_num (green p)
  + 0.114 * byte_num (blue p).

(** The average luminance as the code arrives at it: the running sum of the
    luminances in scan order, each addition rounded to binary64, divided by
    their number. It is not always the arithmetic mean of the luminances. *)
Definition mean_luminance (grid : list RGBA) : float :=
  fold_left (fun total l => total + l) (luminance <$> grid) 0
  / num (Z.of_nat (length grid)).

(** The arithmetic mean of finite numbers, as a rational: their sum, without
    rounding, divided by their number. *)
Definition arithmetic_mean (xs : list float) : option Q :=
  (fun qs => (foldr Qplus 0 qs / inject_Z (Z.of_nat (length xs)))%Q)
    <$> mapM exact_value xs.

(** The bit rule as stated: the bit of a sample is 1 exactly when its
    luminance is at least the arithmetic mean of the luminances of all the
    samples. *)
Definition bits_by_arithmetic_mean (grid : list RGBA) : Prop :=
  ∀ i p lum mean,
    grid !! i = Some p ->
    exact_value (luminance p) = Some lum ->
    arithmetic_mean (luminance <$> grid) = Some mean ->
    String.get i (hashPixels (imageData grid)) = Some "1"%char
    <-> (mean <= lum)%Q.

(** Monotonicity in the threshold, for the loop with the threshold as a
    parameter: at the higher threshold no position becomes grouped that was
    not, and every group lies within a group of the run at the lower
    threshold. *)
Definition threshold_monotone (imageList : list ImageWithHash)
    (T1 T2 : float) : Prop :=
  (∀ j, j ∈ concat (positions T2 imageList) ->
        j ∈ concat (positions T1 imageList)) ∧
  (∀ g2, g2 ∈ positions T2 imageList ->
         ∃ g1, g1 ∈ positions T1 imageList ∧ g2 ⊆ g1).

(** Mutual similarity as stated: any two members of a group are within the
    threshold of each other. *)
Definition pairwise_similar (T : float) (imageList : list ImageWithHash)
    : Prop :=
  ∀ g a b, g ∈ findDuplicatesAt T imageList ->
    a ∈ images g -> b ∈ images g ->
    (T <=? calculateSimilarity (hash a) (hash b)) = true.

(** A grid all of whose samples have one luminance. *)
Definition constant_luminance (grid : list RGBA) : Prop :=
  ∀ p q, p ∈ grid -> q ∈ grid -> luminance p = luminance q.

Definition all_ones : string := string_of_list_ascii (replicate 64 "1"%char).
Definition all_zeros : string := string_of_list_ascii (replicate 64 "0"%char).

(** Failure isolation as stated: every image of the batch that decodes is
    fingerprinted and kept, the groups are those of the kept images, and
    every image that fails is named in a message. *)
Definition isolates_failures (decode : File -> Decoded)
    (selectedFiles : list File) (s : State) : Prop :=
  let s' := handleFiles decode selectedFiles s in
  (∀ f, f ∈ List.filter is_image selectedFiles -> decode f ≠ LoadError ->
        ∃ img, img ∈ st_images s' ∧ file img = f) ∧
  st_duplicateGroups s' = findDuplicates (st_images s') ∧
  (∀ f, f ∈ List.filter is_image selectedFiles -> decode f = LoadError ->
        ∃ msg, msg ∈ st_alerts s' ++ st_console s' ∧
               String.index 0 (file_name f) msg ≠ None).

(** A file that decodes and draws, and the record made of it: the record
    carries the file and the hash of its canvas. *)
Definition processed_as (decode : File -> Decoded) (f : File)
    (img : ImageWithHash) : Prop :=
  file img = f ∧
  ∃ width height grid,
    decode f = Loaded width height (Some grid) ∧
    hash img = hashPixels (imageData grid).

(** ** Sample inputs *)

(** A 64-character hash with ones at the positions from [a] up to [b]. *)
Definition ones_between (a b : nat) : string :=
  string_of_list_ascii
    ((fun i => if ((a <=? i) && (i <? b))%nat then "1"%char else "0"%char)
       <$> seq 0 64).

Definition sample_file (name : string) (content : list byte) : File :=
  {| file_name := name; file_type := "image/png";
     file_size := length content; file_content := content |}.

Definition sample_image (u : nat) (h : string) : ImageWithHash :=
  {| file := sample_file "a.png" [];
     url := u;
     info := {| info_width := 8; info_height := 8; info_size := 0;
                info_type := "image/png"; info_name := "a.png" |};
     hash := h |}.

(** Three records: the second is 4 bits away from the first, the third 7 bits
    away from the first and 3 bits away from the second. *)
Definition chain : list ImageWithHash :=
  [sample_image 0 (ones_between 0 0);
   sample_image 1 (ones_between 0 4);
   sample_image 2 (ones_between 0 7)].

(** Three records: the second and the third are each 6 bits away from the
    first, on disjoint positions, hence 12 bits away from each other. *)
Definition fan : list ImageWithHash :=
  [sample_image 0 (ones_between 0 0);
   sample_image 1 (ones_between 0 6);
   sample_image 2 (ones_between 6 12)].

Definition solid (r g b : byte) : list RGBA :=
  replicate 64 {| red := r; green := g; blue := b; alpha := "255"%byte |}.

(** A canvas filled with the colour [rgb(0, 0, 5)], and a black one (a byte
    literal is written with three decimal digits). *)
Definition dark_blue : list RGBA := solid "000"%byte "000"%byte "005"%byte.
Definition black : list RGBA := solid "000"%byte "000"%byte "000"%byte.

(** A decoder for the samples: a file whose content is one byte [b] shows a
    canvas filled with the gray level [b]; any other content fails to load. *)
Definition sample_decode (f : File) : Decoded :=
  match file_content f with
  | [b] => Loaded 8 8 (Some (solid b b b))
  | _ => LoadError
  end.

(** A batch of five files; the third is corrupt, the first two are equal
    images. *)
Definition sample_batch : list File :=
  [sample_file "a.png" ["010"%byte];
   sample_file "b.png" ["010"%byte];
   sample_file "c.png" [];
   sample_file "d.png" ["200"%byte];
   sample_file "e.png" ["100"%byte]].

Definition initial_state : State :=
  {| st_images := []; st_duplicateGroups := []; st_isProcessing := false;
     st_alerts := []; st_console := []; st_urls := 0 |}.

(** * Properties *)

Local Close Scope float_scope.

(** ** The loops *)

Section Loops.
Variable T : float.

Lemma is_match_fresh seed P i (rest : list Entry) :
  i ∉ rest.*1 ->
  filter (is_match T seed ({[ i ]} ∪ P)) rest = filter (is_match T seed P) rest.
Proof.
  induction rest as [|e rest IH]; intros Hi; [done|].
  rewrite fmap_cons, not_elem_of_cons in Hi. destruct Hi as [Hne Hi].
  rewrite !filter_cons, IH by done.
  destruct (decide (is_match T seed ({[ i ]} ∪ P) e)) as [[H1 H2]|Hn];
    destruct (decide (is_match T seed P e)) as [[H3 H4]|Hm]; try done.
  - exfalso. apply Hm. split; [set_solver|done].
  - exfalso. apply Hn. split; [set_solver|done].
Qed.

(** The inner loop keeps exactly the later entries that pass its test. *)
Lemma scan_filter seed rest group P :
  NoDup rest.*1 ->
  fold_left (scan_step T seed) rest (group, P) =
    (group ++ filter (is_match T seed P) rest,
     P ∪ list_to_set (filter (is_match T seed P) rest).*1).
Proof.
  revert group P. induction rest as [|e rest IH]; intros group P Hnd.
  - simpl. rewrite app_nil_r. f_equal. set_solver.
  - rewrite fmap_cons, NoDup_cons in Hnd. destruct Hnd as [Hfresh Hnd].
    rewrite filter_cons. cbn [fold_left scan_step].
    destruct (decide (e.1 ∈ P)) as [Hin|Hout].
    + rewrite decide_False by (intros [? _]; done). by apply IH.
    + destruct (T <=? calculateSimilarity (hash seed) (hash e.2))%float eqn:Hsim.
      * rewrite decide_True by done.
        rewrite IH, is_match_fresh by done.
        rewrite <-app_assoc. f_equal. rewrite fmap_cons. set_solver.
      * rewrite decide_False by (intros [_ ?]; congruence). by apply IH.
Qed.

(** Groups are only ever appended. *)
Lemma cluster_loop_app todo groups P :
  cluster_loop T todo groups P = groups ++ cluster_loop T todo [] P.
Proof.
  revert groups P. induction todo as [|[i x] rest IH]; intros groups P.
  - simpl. by rewrite app_nil_r.
  - cbn [cluster_loop]. destruct (decide (i ∈ P)); [apply IH|].
    destruct (fold_left _ _ _) as [group P'].
    destruct (1 <? length group)%nat; [|apply IH].
    rewrite (IH (groups ++ _)), (IH ([] ++ _)). by rewrite <-app_assoc.
Qed.

Lemma cluster_loop_run todo P :
  NoDup todo.*1 -> Run T todo P (cluster_loop T todo [] P).
Proof.
  revert P. induction todo as [|[i x] rest IH]; intros P Hnd.
  - constructor.
  - rewrite fmap_cons, NoDup_cons in Hnd. destruct Hnd as [Hfresh Hnd].
    cbn [cluster_loop]. destruct (decide (i ∈ P)) as [Hin|Hout].
    + apply Run_skip; auto.
    + rewrite scan_filter, is_match_fresh by done.
      match goal with
      | |- context [list_to_set (?F).*1] => destruct F as [|m ms] eqn:Hms
      end.
      * simpl. apply Run_unique; auto.
        replace ({[i]} ∪ P ∪ ∅) with ({[i]} ∪ P) by set_solver.
        auto.
      * replace (1 <? length ([(i, x)] ++ m :: ms))%nat with true
          by (symmetry; apply Nat.ltb_lt; simpl; lia).
        rewrite cluster_loop_app. simpl.
        eapply Run_group; eauto.
Qed.
End Loops.

(** ** Facts about every run *)

Lemma StronglySorted_sublist {A} (R : relation A) (k l : list A) :
  k `sublist_of` l -> StronglySorted R l -> StronglySorted R k.
Proof.
  induction 1 as [|x k l Hsub IH|x k l Hsub IH]; intros Hs; [done|..].
  - apply StronglySorted_cons in Hs as [Hall Hs].
    apply StronglySorted_cons. split; [|auto].
    apply Forall_forall. intros y Hy. rewrite Forall_forall in Hall.
    apply Hall. by apply (sublist_subseteq _ _ Hsub).
  - apply StronglySorted_cons in Hs as [_ Hs]. auto.
Qed.

Lemma sublist_fst {A B} (k l : list (A * B)) :
  k `sublist_of` l -> k.*1 `sublist_of` l.*1.
Proof. induction 1; simpl; by constructor. Qed.

Lemma entries_fst_from {A} (l : list A) k :
  (imap (fun n => pair (k + n)) l).*1 = seq k (length l).
Proof.
  revert k. induction l as [|x l IH]; intros k; [done|].
  rewrite imap_cons. simpl. f_equal; [lia|].
  rewrite <-IH. f_equal. apply imap_ext. intros; simpl. f_equal. lia.
Qed.

Lemma entries_fst l : (entries l).*1 = seq 0 (length l).
Proof. apply (entries_fst_from l 0). Qed.

Lemma elem_of_entries l j y : (j, y) ∈ entries l <-> l !! j = Some y.
Proof.
  unfold entries. rewrite elem_of_lookup_imap. split.
  - intros (i & x & Heq & Hl). by simplify_eq.
  - intros Hl. eauto.
Qed.

Lemma seq_sorted k n : StronglySorted lt (seq k n).
Proof.
  revert k. induction n as [|n IH]; intros k; simpl; constructor; [apply IH|].
  apply Forall_forall. intros j Hj. apply elem_of_seq in Hj. lia.
Qed.

Lemma entries_NoDup l : NoDup (entries l).*1.
Proof. rewrite entries_fst. apply NoDup_seq. Qed.

Lemma entries_sorted l : StronglySorted lt (entries l).*1.
Proof. rewrite entries_fst. apply seq_sorted. Qed.

Lemma clusters_run T l : Run T (entries l) ∅ (clusters T l).
Proof. apply cluster_loop_run, entries_NoDup. Qed.

Lemma grouped_cons c out : grouped (c :: out) = (members c).*1 ++ grouped out.
Proof. unfold grouped. rewrite fmap_cons. simpl. by rewrite fmap_app. Qed.

Section RunFacts.
Variable T : float.

Lemma cluster_ok_cons e todo c : cluster_ok T todo c -> cluster_ok T (e :: todo) c.
Proof.
  intros (i & x & ms & -> & Hne & Hsim & Hsub).
  exists i, x, ms. repeat split; auto. by constructor.
Qed.

Lemma Run_shape todo P out :
  Run T todo P out -> Forall (cluster_ok T todo) out.
Proof.
  induction 1 as [P|i x rest P out Hin _ IH|i x rest P ms out Hout Hms Hne _ IH
                 |i x rest P out Hout Hms _ IH].
  - constructor.
  - eapply Forall_impl; [exact IH|]. intros c. apply cluster_ok_cons.
  - constructor.
    + exists i, x, ms. repeat split; auto.
      * subst ms. apply Forall_forall. intros e He.
        apply list_elem_of_filter in He as [[_ Hsim] _]. exact Hsim.
      * subst ms. constructor. apply sublist_filter.
    + eapply Forall_impl; [exact IH|]. intros c. apply cluster_ok_cons.
  - eapply Forall_impl; [exact IH|]. intros c. apply cluster_ok_cons.
Qed.

(** Every grouped position comes from [todo] and was not processed before. *)
Lemma Run_grouped todo P out j :
  Run T todo P out -> j ∈ grouped out -> j ∈ todo.*1 ∧ j ∉ P.
Proof.
  induction 1 as [P|i x rest P out Hin _ IH|i x rest P ms out Hout Hms Hne _ IH
                 |i x rest P out Hout Hms _ IH]; intros Hj.
  - by apply elem_of_nil in Hj.
  - destruct (IH Hj). split; [set_solver|done].
  - rewrite grouped_cons in Hj. simpl in Hj.
    apply elem_of_cons in Hj as [->|Hj]; [split; [set_solver|done]|].
    apply elem_of_app in Hj as [Hj|Hj].
    + apply list_elem_of_fmap in Hj as (e & -> & He). subst ms.
      apply list_elem_of_filter in He as [[Hfresh _] He].
      split; [|done]. rewrite fmap_cons. apply elem_of_cons. right.
      apply list_elem_of_fmap. eauto.
    + destruct (IH Hj) as [H1 H2]. split; [set_solver|set_solver].
  - destruct (IH Hj) as [H1 H2]. split; [set_solver|set_solver].
Qed.

(** No position is grouped twice. *)
Lemma Run_NoDup todo P out :
  NoDup todo.*1 -> Run T todo P out -> NoDup (grouped out).
Proof.
  intros Hnd Hrun. revert Hnd.
  induction Hrun as [P|i x rest P out Hin _ IH|i x rest P ms out Hout Hms Hne Hrun IH
                    |i x rest P out Hout Hms _ IH]; intros Hnd.
  - constructor.
  - apply NoDup_cons in Hnd as [_ Hnd]. auto.
  - rewrite fmap_cons in Hnd. apply NoDup_cons in Hnd as [Hfresh Hnd].
    rewrite grouped_cons. simpl.
    assert (Hsub : ms.*1 `sublist_of` rest.*1).
    { subst ms. apply sublist_fst, sublist_filter. }
    apply NoDup_cons. split.
    + rewrite elem_of_app. intros [Hi|Hi].
      * apply Hfresh. by apply (sublist_subseteq _ _ Hsub).
      * destruct (Run_grouped _ _ _ i Hrun Hi) as [_ Hn]. set_solver.
    + apply NoDup_app. split; [by eapply sublist_NoDup|]. split; [|by apply IH].
      intros j Hj Hj'. destruct (Run_grouped _ _ _ j Hrun Hj') as [_ Hn].
      apply Hn. apply elem_of_union. right. by apply elem_of_list_to_set.
  - rewrite fmap_cons in Hnd. apply NoDup_cons in Hnd as [_ Hnd]. auto.
Qed.

(** The seeds are visited in the order of [todo]. *)
Lemma Run_seeds todo P out :
  Run T todo P out -> seeds out `sublist_of` todo.
Proof.
  induction 1; unfold seeds in *; simpl; try by constructor.
Qed.

(** Membership is settled by the seed alone: the [k]-th cluster holds
    exactly the later entries that are within the threshold of its seed
    and were neither processed at the start nor taken by an earlier
    cluster. *)
Lemma Run_exact todo P out :
  StronglySorted lt todo.*1 -> Run T todo P out ->
  ∀ k c, out !! k = Some c ->
  ∃ i x ms,
    c = {| cluster_hash := hash x; members := (i, x) :: ms |} ∧
    (i, x) ∈ todo ∧
    ∀ e, e ∈ ms <->
      e ∈ todo ∧ i < e.1 ∧
      (T <=? calculateSimilarity (hash x) (hash e.2))%float = true ∧
      (e.1 ∉ P) ∧ e.1 ∉ grouped (take k out).
Proof.
  intros Hs Hrun. revert Hs.
  induction Hrun as [P|i0 x0 rest P out Hin _ IH
                    |i0 x0 rest P ms0 out Hout Hms Hne Hrun IH
                    |i0 x0 rest P out Hout Hms _ IH]; intros Hs k c Hk.
  - by rewrite lookup_nil in Hk.
  - rewrite fmap_cons in Hs. apply StronglySorted_cons in Hs as [Hlt Hs].
    rewrite Forall_forall in Hlt.
    destruct (IH Hs k c Hk) as (i & x & ms & -> & Hseed & Hiff).
    exists i, x, ms. split; [done|]. split; [by apply elem_of_cons; right|].
    assert (i0 < i) by (apply Hlt, list_elem_of_fmap; by exists (i, x)).
    intros e. rewrite Hiff, elem_of_cons. split; [naive_solver|].
    intros ([->|He] & Hie & Hrest); [simpl in Hie; lia|done].
  - rewrite fmap_cons in Hs. apply StronglySorted_cons in Hs as [Hlt Hs].
    rewrite Forall_forall in Hlt. destruct k as [|k]; simpl in Hk.
    + simplify_eq. exists i0, x0, (filter (is_match T x0 P) rest).
      split; [done|]. split; [by apply elem_of_cons; left|].
      intros e. rewrite list_elem_of_filter, elem_of_cons. unfold is_match.
      simpl. split.
      * intros [[Hp Hsim] He]. repeat split; auto.
        -- apply Hlt, list_elem_of_fmap. by exists e.
        -- apply not_elem_of_nil.
      * intros ([->|He] & Hie & Hsim & Hp & _); [simpl in Hie; lia|done].
    + destruct (IH Hs k c Hk) as (i & x & ms & -> & Hseed & Hiff).
      exists i, x, ms. split; [done|]. split; [by apply elem_of_cons; right|].
      assert (i0 < i) by (apply Hlt, list_elem_of_fmap; by exists (i, x)).
      intros e. rewrite Hiff, elem_of_cons. cbn [take]. rewrite grouped_cons.
      simpl. rewrite !not_elem_of_union, not_elem_of_cons, not_elem_of_app.
      rewrite elem_of_list_to_set, elem_of_singleton. split.
      * intros (He & Hie & Hsim & ((Hne0 & Hp) & Hm) & Hg). repeat split; auto.
      * intros ([->|He] & Hie & Hsim & Hp & Hne0 & Hm & Hg);
          [simpl in Hie; lia|]. repeat split; auto.
  - rewrite fmap_cons in Hs. apply StronglySorted_cons in Hs as [Hlt Hs].
    rewrite Forall_forall in Hlt.
    destruct (IH Hs k c Hk) as (i & x & ms & -> & Hseed & Hiff).
    exists i, x, ms. split; [done|]. split; [by apply elem_of_cons; right|].
    assert (i0 < i) by (apply Hlt, list_elem_of_fmap; by exists (i, x)).
    intros e. rewrite Hiff, elem_of_cons, not_elem_of_union, elem_of_singleton.
    split.
    * intros (He & Hie & Hsim & (Hne0 & Hp) & Hg). repeat split; auto.
    * intros ([->|He] & Hie & Hsim & Hp & Hg); [simpl in Hie; lia|].
      repeat split; auto. lia.
Qed.
End RunFacts.

(** ** Comparison of numbers *)

Lemma SFleb_trans a b c :
  SFleb a b = true -> SFleb b c = true -> SFleb a c = true.
Proof.
  unfold SFleb, SFcompare.
  destruct a as [sa|sa| |sa ma ea], b as [sb|sb| |sb mb eb],
    c as [sc|sc| |sc mc ec]; try discriminate; try reflexivity;
    repeat match goal with s : bool |- _ => destruct s end;
    try discriminate; try reflexivity.
  all: change (PosDef.Pos.compare_cont Eq) with Pos.compare.
  all: destruct (Z.compare_spec ea eb); try discriminate;
       destruct (Z.compare_spec eb ec); try discriminate;
       destruct (Z.compare_spec ea ec); try reflexivity; try lia.
  all: destruct (Pos.compare_spec ma mb); try discriminate;
       destruct (Pos.compare_spec mb mc); try discriminate;
       destruct (Pos.compare_spec ma mc); try reflexivity; try lia.
Qed.

(** [>=] on numbers is transitive (NaN is below and above nothing). *)
Lemma float_leb_trans (x y z : float) :
  (x <=? y)%float = true -> (y <=? z)%float = true -> (x <=? z)%float = true.
Proof. rewrite !FloatAxioms.leb_spec. apply SFleb_trans. Qed.

(** ** Counting differences *)

Section Differences.
(** The body of the loop of [calculateSimilarity]. *)
Let step (a b : string) (d i : nat) : nat :=
  if decide (String.get i a = String.get i b) then d else S d.

Lemma step_acc a b d i : step a b d i = d + step a b 0 i.
Proof. unfold step. case_decide; lia. Qed.

Lemma step_le a b i : step a b 0 i ≤ 1.
Proof. unfold step. case_decide; lia. Qed.

Lemma step_sym a b i : step a b 0 i = step b a 0 i.
Proof. unfold step. repeat case_decide; congruence. Qed.

Lemma step_triangle a b c i : step b c 0 i ≤ step a b 0 i + step a c 0 i.
Proof. unfold step. repeat case_decide; try lia. congruence. Qed.

Lemma count_acc a b l d :
  fold_left (step a b) l d = d + fold_left (step a b) l 0.
Proof.
  revert d. induction l as [|i l IH]; intros d; cbn [fold_left]; [lia|].
  rewrite IH, (IH (step a b 0 i)), step_acc. lia.
Qed.

Lemma count_le a b l : fold_left (step a b) l 0 ≤ length l.
Proof.
  induction l as [|i l IH]; cbn [fold_left length]; [lia|].
  rewrite count_acc. pose proof (step_le a b i). lia.
Qed.

Lemma count_shift c a d b l k :
  fold_left (step (String c a) (String d b)) (S <$> l) k =
  fold_left (step a b) l k.
Proof. revert k. induction l as [|i l IH]; intros k; simpl; [done|]. apply IH. Qed.

Lemma count_triangle a b c l :
  fold_left (step b c) l 0
  ≤ fold_left (step a b) l 0 + fold_left (step a c) l 0.
Proof.
  induction l as [|i l IH]; cbn [fold_left]; [lia|].
  rewrite (count_acc b c), (count_acc a b), (count_acc a c).
  pose proof (step_triangle a b c i). lia.
Qed.

Lemma count_sym a b l : fold_left (step a b) l 0 = fold_left (step b a) l 0.
Proof.
  induction l as [|i l IH]; cbn [fold_left]; [done|].
  by rewrite (count_acc a b), (count_acc b a), IH, step_sym.
Qed.

Lemma differences_le a b : differences a b ≤ String.length a.
Proof.
  unfold differences. etrans; [apply count_le|]. by rewrite length_seq.
Qed.

(** For equal lengths the loop counts the Hamming distance. *)
Lemma differences_hamming a b :
  String.length a = String.length b -> differences a b = hamming a b.
Proof.
  revert b. induction a as [|c a IH]; intros [|d b] Hlen; try done.
  simpl in Hlen. injection Hlen as Hlen. cbn [hamming]. rewrite <-(IH b Hlen).
  unfold differences. fold (step (String c a) (String d b)). fold (step a b).
  cbn [String.length seq fold_left].
  rewrite <-fmap_S_seq, (count_shift c a d b), count_acc.
  unfold step at 1. simpl. repeat case_decide; simplify_eq; lia.
Qed.

Lemma differences_sym a b :
  String.length a = String.length b -> differences a b = differences b a.
Proof. unfold differences. intros <-. apply count_sym. Qed.

(** Two hashes are no further apart than their distances to a third. *)
Lemma differences_triangle a b c :
  String.length a = String.length b ->
  differences b c ≤ differences a b + differences a c.
Proof. unfold differences. intros <-. apply count_triangle. Qed.
End Differences.

(** ** Similarity of 64-bit hashes *)

(** The value of [calculateSimilarity] at distance [d] between hashes of
    length 64. *)
Lemma similarity_64 a b :
  String.length a = 64 ->
  calculateSimilarity a b =
    (num (64 - Z.of_nat (differences a b)) / num 64 * 100)%float.
Proof. intros Hlen. unfold calculateSimilarity. by rewrite Hlen. Qed.

(** The table of the 65 possible values, checked by evaluation: each is the
    exact percentage, lies in [0, 100], is at least 90 exactly when at most 6
    bits differ, and at least 81.25 exactly when at most 12 bits differ. *)
Lemma similarity_table d :
  d ≤ 64 ->
  let s := (num (64 - Z.of_nat d) / num 64 * 100)%float in
  is_exactly s (percentage 64 d) = true ∧
  (0 <=? s)%float = true ∧ (s <=? 100)%float = true ∧
  (90 <=? s)%float = bool_decide (d ≤ 6) ∧
  (81.25 <=? s)%float = bool_decide (d ≤ 12).
Proof.
  intros Hd.
  assert (Hall : Forall (fun d =>
      let s := (num (64 - Z.of_nat d) / num 64 * 100)%float in
      is_exactly s (percentage 64 d) = true ∧
      (0 <=? s)%float = true ∧ (s <=? 100)%float = true ∧
      (90 <=? s)%float = bool_decide (d ≤ 6) ∧
      (81.25 <=? s)%float = bool_decide (d ≤ 12)) (seq 0 65)).
  { repeat (apply Forall_cons; split; [vm_compute; repeat split; reflexivity|]).
    apply Forall_nil. done. }
  rewrite Forall_forall in Hall. apply Hall, elem_of_seq. lia.
Qed.

(** ** The fingerprint *)

(** On the 256 values a channel can take, the order of the factors in the
    luma products does not matter. *)
Lemma luma_products b :
  (byte_num b * 0.299 = 0.299 * byte_num b ∧
   byte_num b * 0.587 = 0.587 * byte_num b ∧
   byte_num b * 0.114 = 0.114 * byte_num b)%float.
Proof. destruct b; vm_compute; repeat split; reflexivity. Qed.

Lemma gray_luminance p :
  gray_of (byte_num (red p)) (byte_num (green p)) (byte_num (blue p))
  = luminance p.
Proof.
  unfold gray_of, luminance.
  destruct (luma_products (red p)) as (-> & _ & _).
  destruct (luma_products (green p)) as (_ & -> & _).
  destruct (luma_products (blue p)) as (_ & _ & ->). reflexivity.
Qed.

(** The loop over [pixels] pushes one luminance per sample. *)
Lemma grayscale_imageData grid : grayscale (imageData grid) = luminance <$> grid.
Proof.
  induction grid as [|p grid IH]; [done|].
  cbn [imageData flat_map app grayscale]. fold (imageData grid).
  by rewrite IH, gray_luminance.
Qed.

Lemma string_app_cons c (s t : string) :
  (String c s ++ t)%string = String c (s ++ t).
Proof. reflexivity. Qed.

Lemma string_app_nil (s : string) : (s ++ "")%string = s.
Proof. induction s as [|c s IH]; [done|]. by rewrite string_app_cons, IH. Qed.

Lemma string_app_snoc (s t : string) c :
  ((s ++ String c "") ++ t)%string = (s ++ String c t)%string.
Proof. induction s as [|c' s IH]; [done|]. by rewrite !string_app_cons, IH. Qed.

Lemma hash_bits_from average gs acc :
  fold_left (fun h gray => (h ++ String (hash_bit average gray) "")%string) gs acc
  = (acc ++ string_of_list_ascii (hash_bit average <$> gs))%string.
Proof.
  revert acc. induction gs as [|g gs IH]; intros acc;
    cbn [fold_left fmap list_fmap string_of_list_ascii].
  - by rewrite string_app_nil.
  - by rewrite IH, string_app_snoc.
Qed.

Lemma hash_bits_list average gs :
  hash_bits average gs = string_of_list_ascii (hash_bit average <$> gs).
Proof. unfold hash_bits. by rewrite hash_bits_from. Qed.

Lemma length_of_list_ascii l : String.length (string_of_list_ascii l) = length l.
Proof. induction l; simpl; congruence. Qed.

Lemma get_of_list_ascii l i : String.get i (string_of_list_ascii l) = l !! i.
Proof.
  revert i. induction l as [|c l IH]; intros [|i]; simpl; try done.
Qed.

(** The hash of a canvas, bit by bit. *)
Lemma hashPixels_bits grid :
  hashPixels (imageData grid) =
    string_of_list_ascii (hash_bit (mean_luminance grid) <$> (luminance <$> grid)).
Proof.
  unfold hashPixels, average_of, mean_luminance, total_of.
  by rewrite grayscale_imageData, hash_bits_list, length_fmap.
Qed.

Lemma lookup_concat_rows {A} n (rows : list (list A)) r row c p :
  Forall (fun row => length row = n) rows ->
  rows !! r = Some row -> row !! c = Some p ->
  concat rows !! (n * r + c) = Some p.
Proof.
  intros Hall. revert r. induction Hall as [|row0 rows Hlen _ IH]; intros r Hr Hc.
  - by rewrite lookup_nil in Hr.
  - destruct r as [|r]; simpl in *.
    + simplify_eq. rewrite Nat.mul_0_r, Nat.add_0_l.
      rewrite lookup_app_l; [done|]. by eapply lookup_lt_Some.
    + rewrite lookup_app_r by lia.
      replace (n * S r + c - length row0) with (n * r + c) by lia. by apply IH.
Qed.

Lemma length_concat_rows {A} n (rows : list (list A)) :
  Forall (fun row => length row = n) rows -> length (concat rows) = n * length rows.
Proof.
  induction 1 as [|row rows Hlen _ IH]; simpl; [lia|]. rewrite length_app. lia.
Qed.

(** C3 (counterexample): on a canvas filled with [rgb(0, 0, 5)] the
    luminance of every sample is the arithmetic mean of the 64 luminances,
    so by the rule as stated every bit would be 1; the hash is 64 zeros. *)
Lemma bits_not_by_arithmetic_mean :
  length dark_blue = 64 ∧
  match exact_value (luminance {| red := "000"%byte; green := "000"%byte;
                                  blue := "005"%byte; alpha := "255"%byte |}),
        arithmetic_mean (luminance <$> dark_blue) with
  | Some lum, Some mean => Qeq_bool mean lum = true
  | _, _ => False
  end ∧
  hashPixels (imageData dark_blue) = all_zeros ∧
  ¬ bits_by_arithmetic_mean dark_blue.
Proof.
  split; [reflexivity|]. split; [vm_compute; reflexivity|].
  split; [vm_compute; reflexivity|]. intros Hrule.
  assert (Hle : match exact_value (luminance {| red := "000"%byte;
                        green := "000"%byte; blue := "005"%byte;
                        alpha := "255"%byte |}),
                      arithmetic_mean (luminance <$> dark_blue) with
                | Some lum, Some mean => Qle_bool mean lum = true
                | _, _ => False
                end) by (vm_compute; reflexivity).
  destruct (exact_value _) as [lum|] eqn:Hlum; [|done].
  destruct (arithmetic_mean _) as [mean|] eqn:Hmean; [|done].
  apply Qle_bool_iff in Hle.
  apply (Hrule 0 _ lum mean eq_refl Hlum Hmean) in Hle.
  vm_compute in Hle. discriminate Hle.
Qed.

(** C3 (amended): for an 8x8 grid of RGBA samples the hash has exactly 64
    bits, and the bit at position [8 * r + c] (row-major scan order) is 1
    when the luminance [0.299*R + 0.587*G + 0.114*B] of the sample in row
    [r], column [c], computed in binary64, is at least the average that the
    code computes (the binary64 running sum of the 64 luminances in scan
    order, divided by 64), and 0 otherwise. *)
Theorem fingerprint_of_grid (rows : list (list RGBA)) :
  length rows = 8 ->
  Forall (fun row => length row = 8) rows ->
  let grid := concat rows in
  let h := hashPixels (imageData grid) in
  String.length h = 64 ∧
  ∀ r c row p, rows !! r = Some row -> row !! c = Some p ->
    String.get (8 * r + c) h =
      Some (if (mean_luminance grid <=? luminance p)%float
            then "1"%char else "0"%char).
Proof.
  intros Hrows Hall grid h. subst h. rewrite hashPixels_bits. split.
  - rewrite length_of_list_ascii, !length_fmap. subst grid.
    rewrite (length_concat_rows 8) by done. lia.
  - intros r c row p Hr Hc. rewrite get_of_list_ascii, !list_lookup_fmap.
    subst grid. by rewrite (lookup_concat_rows 8 rows r row c p).
Qed.

Lemma fingerprint_of_grid_witness :
  let dark := {| red := "000"%byte; green := "000"%byte; blue := "005"%byte;
                 alpha := "255"%byte |} in
  let light := {| red := "200"%byte; green := "100"%byte; blue := "050"%byte;
                  alpha := "255"%byte |} in
  let rows := replicate 7 (replicate 8 dark)
              ++ [replicate 5 dark ++ [light; dark; light]] in
  let h := hashPixels (imageData (concat rows)) in
  String.length h = 64 ∧
  String.get (8 * 7 + 5) h = Some "1"%char ∧
  String.get (8 * 7 + 6) h = Some "0"%char ∧
  String.get (8 * 7 + 7) h = Some "1"%char ∧
  String.get (8 * 0 + 0) h = Some "0"%char.
Proof.
  intros dark light rows h.
  destruct (fingerprint_of_grid rows) as [Hlen Hbits];
    [reflexivity|repeat constructor|].
  split; [exact Hlen|].
  split; [|split; [|split]].
  - subst h. rewrite (Hbits 7 5 (replicate 5 dark ++ [light; dark; light]) light)
      by reflexivity. vm_compute. reflexivity.
  - subst h. rewrite (Hbits 7 6 (replicate 5 dark ++ [light; dark; light]) dark)
      by reflexivity. vm_compute. reflexivity.
  - subst h. rewrite (Hbits 7 7 (replicate 5 dark ++ [light; dark; light]) light)
      by reflexivity. vm_compute. reflexivity.
  - subst h. rewrite (Hbits 0 0 (replicate 8 dark) dark) by reflexivity.
    vm_compute. reflexivity.
Defined.

(** C4: for two fingerprints of 64 bits the similarity is
    [((64 - d) / 64) * 100] with [d] their Hamming distance; the number
    computed is exactly that percentage, and it lies in [0, 100]. *)
Theorem similarity_formula (a b : string) :
  String.length a = 64 -> String.length b = 64 ->
  let d := hamming a b in
  let s := calculateSimilarity a b in
  d ≤ 64 ∧
  s = (num (64 - Z.of_nat d) / num 64 * 100)%float ∧
  is_exactly s (percentage 64 d) = true ∧
  (0 <=? s)%float = true ∧ (s <=? 100)%float = true.
Proof.
  intros Ha Hb d s. subst d s.
  rewrite <-differences_hamming by congruence.
  pose proof (differences_le a b) as Hd. rewrite Ha in Hd.
  rewrite similarity_64 by done.
  destruct (similarity_table _ Hd) as (Hex & H0 & H100 & _). auto.
Qed.

Lemma similarity_formula_witness :
  calculateSimilarity (ones_between 0 0) (ones_between 0 4) = 93.75%float.
Proof.
  destruct (similarity_formula (ones_between 0 0) (ones_between 0 4))
    as (_ & Hs & _); [reflexivity|reflexivity|].
  rewrite Hs. vm_compute. reflexivity.
Defined.

Lemma solid_constant r g b : constant_luminance (solid r g b).
Proof.
  intros p q Hp Hq. apply elem_of_replicate in Hp as [-> _].
  by apply elem_of_replicate in Hq as [-> _].
Qed.

Lemma constant_luminance_replicate grid p :
  constant_luminance grid -> p ∈ grid ->
  luminance <$> grid = replicate (length grid) (luminance p).
Proof.
  intros Hconst Hp. apply list_eq_same_length with (length grid).
  - by rewrite length_replicate.
  - by rewrite length_fmap.
  - intros i x y Hi Hx Hy. apply lookup_replicate in Hy as [-> _].
    rewrite list_lookup_fmap in Hx.
    destruct (grid !! i) as [q|] eqn:Hq; simplify_eq/=.
    apply Hconst; [|done]. by eapply list_elem_of_lookup_2.
Qed.

(** C10 (counterexample): a canvas filled with [rgb(0, 0, 5)] has one
    luminance throughout, yet the running sum of its 64 equal luminances
    rounds above 64 times the luminance, the average exceeds every sample and
    the hash is all zeros; against the all-ones hash of a black canvas its
    similarity is 0. *)
Lemma constant_grid_not_all_ones :
  length dark_blue = 64 ∧ constant_luminance dark_blue ∧
  (mean_luminance dark_blue <=? luminance
     {| red := "000"%byte; green := "000"%byte; blue := "005"%byte;
        alpha := "255"%byte |})%float = false ∧
  hashPixels (imageData dark_blue) = all_zeros ∧
  hashPixels (imageData dark_blue) ≠ all_ones ∧
  constant_luminance black ∧
  hashPixels (imageData black) = all_ones ∧
  calculateSimilarity (hashPixels (imageData dark_blue))
                      (hashPixels (imageData black)) = 0%float.
Proof.
  split; [reflexivity|]. split; [apply solid_constant|].
  split; [vm_compute; reflexivity|]. split; [vm_compute; reflexivity|].
  split; [vm_compute; discriminate|]. split; [apply solid_constant|].
  split; vm_compute; reflexivity.
Qed.

(** C10 (amended): for a grid of 64 samples that all have the same luminance,
    the 64 bits of the hash are equal: all ones when the average computed
    from the running sum is not above that luminance, all zeros otherwise.
    Two such images have similarity 100 when their hashes agree and 0 when
    they do not. *)
Theorem constant_grid_hash (grid1 grid2 : list RGBA) :
  length grid1 = 64 -> constant_luminance grid1 ->
  length grid2 = 64 -> constant_luminance grid2 ->
  let h1 := hashPixels (imageData grid1) in
  let h2 := hashPixels (imageData grid2) in
  (∀ p, p ∈ grid1 ->
     h1 = if (mean_luminance grid1 <=? luminance p)%float
          then all_ones else all_zeros) ∧
  (h1 = all_ones ∨ h1 = all_zeros) ∧
  (h1 = h2 -> calculateSimilarity h1 h2 = 100%float) ∧
  (h1 ≠ h2 -> calculateSimilarity h1 h2 = 0%float).
Proof.
  intros Hlen1 Hc1 Hlen2 Hc2 h1 h2.
  assert (Hbits : ∀ grid, length grid = 64 -> constant_luminance grid ->
    ∀ p, p ∈ grid ->
      hashPixels (imageData grid) =
        if (mean_luminance grid <=? luminance p)%float
        then all_ones else all_zeros).
  { intros grid Hlen Hc p Hp. rewrite hashPixels_bits.
    rewrite (constant_luminance_replicate grid p), Hlen by done.
    rewrite fmap_replicate. unfold hash_bit.
    by destruct (mean_luminance grid <=? luminance p)%float. }
  assert (Hcases : ∀ grid, length grid = 64 -> constant_luminance grid ->
    hashPixels (imageData grid) = all_ones ∨
    hashPixels (imageData grid) = all_zeros).
  { intros grid Hlen Hc. destruct grid as [|p grid]; [done|].
    rewrite (Hbits _ Hlen Hc p) by (by left).
    destruct (_ <=? _)%float; auto. }
  split; [by apply Hbits|]. split; [by apply Hcases|]. subst h1 h2.
  destruct (Hcases grid1 Hlen1 Hc1) as [-> | ->],
    (Hcases grid2 Hlen2 Hc2) as [-> | ->]; split; intros H;
    first [ by destruct H
          | by (vm_compute in H; discriminate H)
          | vm_compute; reflexivity ].
Qed.

Lemma constant_grid_hash_witness :
  hashPixels (imageData dark_blue) = all_ones ∨
  hashPixels (imageData dark_blue) = all_zeros.
Proof.
  apply (constant_grid_hash dark_blue black);
    solve [reflexivity | apply solid_constant].
Defined.

(** ** The clusterer *)

Lemma elem_of_concat {A} (x : A) (ls : list (list A)) :
  x ∈ concat ls <-> ∃ l, x ∈ l ∧ l ∈ ls.
Proof.
  induction ls as [|l ls IH]; simpl.
  - split; [by intros ?%elem_of_nil|]. by intros (l & _ & ?%elem_of_nil).
  - rewrite elem_of_app, IH. split.
    + intros [Hx|(l' & Hx & Hl')]; [exists l|exists l']; split; auto;
        [by left|by right].
    + intros (l' & Hx & [->|Hl']%elem_of_cons); eauto.
Qed.

Lemma grouped_concat out :
  grouped out = concat ((fun c => (members c).*1) <$> out).
Proof.
  induction out as [|c out IH]; [done|]. rewrite grouped_cons, IH. done.
Qed.

Lemma seeds_heads out :
  (seeds out).*1 = omap head ((fun c => (members c).*1) <$> out).
Proof.
  unfold seeds. induction out as [|c out IH]; [done|].
  destruct c as [h [|[i x] ms]]; simpl in *; [done|]. by f_equal.
Qed.

(** Every cluster of a run over [entries imageList] is well formed. *)
Lemma clusters_ok T imageList :
  Forall (cluster_ok T (entries imageList)) (clusters T imageList).
Proof. apply Run_shape with ∅, clusters_run. Qed.

Lemma cluster_ok_lookup T imageList c e :
  cluster_ok T (entries imageList) c -> e ∈ members c ->
  imageList !! e.1 = Some e.2.
Proof.
  intros (i & x & ms & -> & _ & _ & Hsub) He. simpl in He.
  apply (sublist_subseteq _ _ Hsub) in He. destruct e as [j y].
  by apply elem_of_entries.
Qed.

(** The members of each returned group are the records at the positions
    that the run recorded for it. *)
Lemma groups_located T imageList :
  Forall2 (located imageList) (findDuplicatesAt T imageList)
          (positions T imageList).
Proof.
  unfold findDuplicatesAt, positions. apply Forall2_fmap, Forall_Forall2_diag.
  eapply Forall_impl; [apply clusters_ok|]. intros c Hok.
  unfold located, group_of. simpl. apply Forall2_fmap, Forall_Forall2_diag.
  apply Forall_forall. intros e He. by eapply cluster_ok_lookup.
Qed.

(** C5: in the [k]-th returned group every member after the first is within
    the threshold of the first (the seed), and the seed alone settles
    membership: a record at a later position is in the group exactly when it
    is within the threshold of the seed and no earlier group took it. *)
Theorem members_match_seed (T : float) (imageList : list ImageWithHash) k g :
  findDuplicatesAt T imageList !! k = Some g ->
  ∃ i seed ms,
    clusters T imageList !! k =
      Some {| cluster_hash := hash seed; members := (i, seed) :: ms |} ∧
    group_hash g = hash seed ∧ images g = seed :: ms.*2 ∧
    imageList !! i = Some seed ∧
    (∀ m, m ∈ ms.*2 ->
       (T <=? calculateSimilarity (hash seed) (hash m))%float = true) ∧
    (∀ j y, imageList !! j = Some y ->
       (j, y) ∈ ms <->
         i < j ∧
         (T <=? calculateSimilarity (hash seed) (hash y))%float = true ∧
         j ∉ grouped (take k (clusters T imageList))).
Proof.
  unfold findDuplicatesAt. rewrite list_lookup_fmap. intros Hg.
  destruct (clusters T imageList !! k) as [c|] eqn:Hc; simplify_eq/=.
  destruct (Run_exact T _ _ _ (entries_sorted imageList)
              (clusters_run T imageList) k c Hc)
    as (i & seed & ms & -> & Hseed & Hiff).
  exists i, seed, ms.
  split; [done|]. split; [done|]. split; [done|].
  split; [by apply elem_of_entries|]. split.
  - intros m Hm. apply list_elem_of_fmap in Hm as (e & -> & He).
    apply Hiff in He. tauto.
  - intros j y Hy. rewrite Hiff. simpl. split; [tauto|].
    intros (Hij & Hsim & Hfree). split; [by apply elem_of_entries|].
    repeat split; try done.
Qed.

Lemma members_match_seed_witness :
  ∃ i seed ms,
    clusters 92 chain !! 0 =
      Some {| cluster_hash := hash seed; members := (i, seed) :: ms |} ∧
    i = 0 ∧ ms.*1 = [1].
Proof.
  destruct (members_match_seed 92 chain 0
              {| group_hash := ones_between 0 0;
                 images := [sample_image 0 (ones_between 0 0);
                            sample_image 1 (ones_between 0 4)] |})
    as (i & seed & ms & Hc & _); [vm_compute; reflexivity|].
  exists i, seed, ms. split; [exact Hc|].
  vm_compute in Hc. injection Hc as _ <- _ <-. split; reflexivity.
Defined.

(** The positions of a group are distinct positions of the input. *)
Lemma group_positions_bound T imageList ps :
  ps ∈ positions T imageList ->
  NoDup ps ∧ ∀ j, j ∈ ps -> j < length imageList.
Proof.
  intros Hps. unfold positions in Hps.
  apply list_elem_of_fmap in Hps as (c & -> & Hc).
  pose proof (clusters_ok T imageList) as Hok. rewrite Forall_forall in Hok.
  destruct (Hok c Hc) as (i & x & ms & -> & _ & _ & Hsub). simpl.
  apply sublist_fst in Hsub. rewrite entries_fst in Hsub. split.
  - eapply sublist_NoDup; [apply NoDup_seq|exact Hsub].
  - intros j Hj. apply (sublist_subseteq _ _ Hsub) in Hj.
    apply elem_of_seq in Hj. lia.
Qed.

(** C6: the members of every returned group stand at strictly increasing
    positions of the input, so the first member is the earliest record of the
    group; and the first members of the groups stand at strictly increasing
    positions, so the groups come in the order of their seeds. *)
Theorem seed_first_order (T : float) (imageList : list ImageWithHash) :
  Forall2 (located imageList) (findDuplicatesAt T imageList)
          (positions T imageList) ∧
  Forall (StronglySorted lt) (positions T imageList) ∧
  (∀ ps, ps ∈ positions T imageList ->
     ∃ i rest, ps = i :: rest ∧ Forall (lt i) rest) ∧
  StronglySorted lt (omap head (positions T imageList)).
Proof.
  split; [apply groups_located|].
  assert (Hsorted : Forall (StronglySorted lt) (positions T imageList)).
  { unfold positions. apply Forall_fmap.
    eapply Forall_impl; [apply clusters_ok|].
    intros c (i & x & ms & -> & _ & _ & Hsub). simpl.
    apply (StronglySorted_sublist _ _ (entries imageList).*1);
      [by apply (sublist_fst ((i, x) :: ms))|apply entries_sorted]. }
  split; [done|]. split.
  - intros ps Hps. rewrite Forall_forall in Hsorted.
    pose proof (Hsorted ps Hps) as Hs.
    unfold positions in Hps. apply list_elem_of_fmap in Hps as (c & -> & Hc).
    pose proof (clusters_ok T imageList) as Hok. rewrite Forall_forall in Hok.
    destruct (Hok c Hc) as (i & x & ms & -> & _). simpl in *.
    apply StronglySorted_cons in Hs as [Hlt _]. eauto.
  - unfold positions. rewrite <-seeds_heads.
    apply (StronglySorted_sublist _ _ (entries imageList).*1);
      [|apply entries_sorted].
    apply sublist_fst, Run_seeds with T ∅, clusters_run.
Qed.

(** C7: no returned group has fewer than two members, whatever the records
    and the threshold; fewer than two records give no group at all. *)
Theorem no_singleton_groups (T : float) (imageList : list ImageWithHash) :
  (∀ g, g ∈ findDuplicatesAt T imageList -> 2 ≤ length (images g)) ∧
  (length imageList < 2 -> findDuplicatesAt T imageList = []).
Proof.
  assert (Hsize : ∀ g, g ∈ findDuplicatesAt T imageList -> 2 ≤ length (images g)).
  { intros g Hg. unfold findDuplicatesAt in Hg.
    apply list_elem_of_fmap in Hg as (c & -> & Hc).
    pose proof (clusters_ok T imageList) as Hok. rewrite Forall_forall in Hok.
    destruct (Hok c Hc) as (i & x & ms & -> & Hne & _). simpl.
    rewrite length_fmap. destruct ms; [done|]. simpl. lia. }
  split; [done|]. intros Hlen.
  destruct (findDuplicatesAt T imageList) as [|g gs] eqn:Hgs; [done|]. exfalso.
  pose proof (Hsize g ltac:(by left)) as Hg.
  pose proof (groups_located T imageList) as Hloc. rewrite Hgs in Hloc.
  destruct (positions T imageList) as [|ps pss] eqn:Hpos;
    [by apply Forall2_nil_inv_r in Hloc|].
  apply Forall2_cons in Hloc as [Hloc _].
  pose proof (Forall2_length _ _ _ Hloc) as Hl.
  destruct (group_positions_bound T imageList ps) as [Hnd Hlt];
    [rewrite Hpos; by left|].
  destruct ps as [|p1 [|p2 ps]]; simpl in Hl; try lia.
  apply NoDup_cons in Hnd as [Hne _]. rewrite not_elem_of_cons in Hne.
  pose proof (Hlt p1 ltac:(by left)). pose proof (Hlt p2 ltac:(by right; left)).
  lia.
Qed.

Lemma no_singleton_groups_witness :
  2 ≤ length (images {| group_hash := ones_between 0 0;
                        images := [sample_image 0 (ones_between 0 0);
                                   sample_image 1 (ones_between 0 4)] |}) ∧
  findDuplicatesAt 92 [sample_image 0 (ones_between 0 0)] = [].
Proof.
  split.
  - apply (no_singleton_groups 92 chain). vm_compute. left.
  - apply (no_singleton_groups 92 [sample_image 0 (ones_between 0 0)]).
    simpl. lia.
Defined.

(** C8: the returned groups are pairwise disjoint: the positions of the
    input behind all the members of all the groups are distinct, so a record
    is in at most one group and at most once in it. *)
Theorem groups_disjoint (T : float) (imageList : list ImageWithHash) :
  Forall2 (located imageList) (findDuplicatesAt T imageList)
          (positions T imageList) ∧
  NoDup (concat (positions T imageList)) ∧
  ∀ j, j ∈ concat (positions T imageList) -> j < length imageList.
Proof.
  split; [apply groups_located|]. split.
  - unfold positions. rewrite <-grouped_concat.
    apply Run_NoDup with T (entries imageList) ∅;
      [apply entries_NoDup|apply clusters_run].
  - intros j Hj. apply elem_of_concat in Hj as (ps & Hj & Hps).
    by apply (group_positions_bound T imageList ps).
Qed.

(** ** Raising the threshold *)

Section Emptiness.
Variable T : float.

(** A run that reports nothing has met no pair within the threshold. *)
Lemma Run_empty_apart todo P out :
  Run T todo P out -> out = [] ->
  NoDup todo.*1 -> (∀ e, e ∈ todo -> e.1 ∉ P) ->
  ForallOrdPairs (apart T) todo.
Proof.
  induction 1 as [P|i x rest P out Hin _ IH|i x rest P ms out Hout Hms Hne _ IH
                 |i x rest P out Hout Hms _ IH]; intros Hnil Hnd Hfresh.
  - constructor.
  - exfalso. apply (Hfresh (i, x)); [by left|done].
  - done.
  - rewrite fmap_cons in Hnd. apply NoDup_cons in Hnd as [Hi Hnd].
    constructor.
    + apply List.Forall_forall. intros e He%list_elem_of_In Hsim.
      eapply (filter_nil_not_elem_of _ _ e Hms); [|done].
      split; [|done]. apply Hfresh. by right.
    + apply IH; [done|done|]. intros e He. rewrite not_elem_of_union.
      split; [|apply Hfresh; by right].
      rewrite elem_of_singleton. intros Heq. apply Hi.
      rewrite <-Heq. apply list_elem_of_fmap. by exists e.
Qed.

(** Where no pair is within the threshold, a run reports nothing. *)
Lemma apart_Run_empty todo P out :
  Run T todo P out -> ForallOrdPairs (apart T) todo -> out = [].
Proof.
  induction 1 as [P|i x rest P out Hin _ IH|i x rest P ms out Hout Hms Hne _ IH
                 |i x rest P out Hout Hms _ IH]; intros Hap.
  - done.
  - inversion Hap; subst. auto.
  - exfalso. inversion Hap as [|? ? Hhead _]; subst.
    destruct (filter (is_match T x P) rest) as [|e ms] eqn:Hf; [done|].
    assert (He : e ∈ filter (is_match T x P) rest) by (rewrite Hf; by left).
    apply list_elem_of_filter in He as [[_ Hsim] He].
    rewrite List.Forall_forall in Hhead.
    by apply (Hhead e); [apply list_elem_of_In|].
  - inversion Hap; subst. auto.
Qed.
End Emptiness.

Lemma apart_mono T1 T2 todo :
  (T1 <=? T2)%float = true ->
  ForallOrdPairs (apart T1) todo -> ForallOrdPairs (apart T2) todo.
Proof.
  intros HT. induction 1 as [|e todo Hhead _ IH]; constructor; [|done].
  eapply List.Forall_impl; [|exact Hhead]. intros e' Hap Hsim.
  apply Hap. by eapply float_leb_trans.
Qed.

(** [findDuplicates] takes no threshold: the source compares with the
    literal 90. For the loop written with the threshold as a parameter,
    membership is not monotone in it: with the second record 4 bits from the
    first and the third 3 bits from the second and 7 from the first, the run
    at 90 groups the first two records and leaves the third alone, while a
    run at 95 would leave the first alone and group the third with the
    second. *)
Lemma raising_threshold_adds_member :
  (90 <=? 95)%float = true ∧
  (images <$> findDuplicates chain) = [take 2 chain] ∧
  positions 90 chain = [[0; 1]] ∧
  (images <$> findDuplicatesAt 95 chain) = [drop 1 chain] ∧
  positions 95 chain = [[1; 2]] ∧
  ¬ threshold_monotone chain 90 95.
Proof.
  assert (H90 : positions 90 chain = [[0; 1]]) by (vm_compute; reflexivity).
  assert (H95 : positions 95 chain = [[1; 2]]) by (vm_compute; reflexivity).
  split; [vm_compute; reflexivity|]. split; [vm_compute; reflexivity|].
  split; [done|]. split; [vm_compute; reflexivity|]. split; [done|].
  intros [Hgrouped _]. specialize (Hgrouped 2).
  rewrite H90, H95 in Hgrouped. simpl in Hgrouped.
  assert (Hin : 2 ∈ [0; 1]) by (apply Hgrouped; set_solver).
  set_solver.
Qed.

(** What does hold for the loop with the threshold as a parameter, for
    [T1 <= T2]: every member that the run at [T2] puts in a group is within
    [T1] of the seed of that group, and if the run at [T1] reports no group
    then neither does the run at [T2]. *)
Lemma raising_threshold (T1 T2 : float) (imageList : list ImageWithHash) :
  (T1 <=? T2)%float = true ->
  (∀ g, g ∈ findDuplicatesAt T2 imageList ->
     ∃ seed ms, images g = seed :: ms ∧
       ∀ m, m ∈ ms ->
         (T1 <=? calculateSimilarity (hash seed) (hash m))%float = true) ∧
  (findDuplicatesAt T1 imageList = [] -> findDuplicatesAt T2 imageList = []).
Proof.
  intros HT. split.
  - intros g Hg. unfold findDuplicatesAt in Hg.
    apply list_elem_of_fmap in Hg as (c & -> & Hc).
    pose proof (clusters_ok T2 imageList) as Hok. rewrite Forall_forall in Hok.
    destruct (Hok c Hc) as (i & x & ms & -> & _ & Hsim & _).
    exists x, ms.*2. split; [done|]. intros m Hm.
    apply list_elem_of_fmap in Hm as (e & -> & He).
    rewrite Forall_forall in Hsim. eapply float_leb_trans; eauto.
  - unfold findDuplicatesAt. intros Hnil%fmap_nil_inv.
    assert (Hap : ForallOrdPairs (apart T1) (entries imageList)).
    { apply Run_empty_apart with ∅ (clusters T1 imageList);
        [apply clusters_run|done|apply entries_NoDup|].
      intros e _. apply not_elem_of_empty. }
    rewrite (apart_Run_empty T2 _ _ _ (clusters_run T2 imageList)); [done|].
    by apply apart_mono with T1.
Qed.

(** ** Similarity inside a group *)

Lemma differences_refl a : differences a a = 0.
Proof.
  unfold differences. generalize (seq 0 (String.length a)).
  intros l. induction l as [|i l IH]; simpl; [done|].
  by rewrite decide_True.
Qed.

Lemma within_90 a b :
  String.length a = 64 ->
  (90 <=? calculateSimilarity a b)%float = true <-> differences a b ≤ 6.
Proof.
  intros Ha. pose proof (differences_le a b) as Hd. rewrite Ha in Hd.
  rewrite similarity_64 by done.
  destruct (similarity_table _ Hd) as (_ & _ & _ & -> & _).
  by rewrite bool_decide_eq_true.
Qed.

Lemma within_81 a b :
  String.length a = 64 ->
  (81.25 <=? calculateSimilarity a b)%float = true <-> differences a b ≤ 12.
Proof.
  intros Ha. pose proof (differences_le a b) as Hd. rewrite Ha in Hd.
  rewrite similarity_64 by done.
  destruct (similarity_table _ Hd) as (_ & _ & _ & _ & ->).
  by rewrite bool_decide_eq_true.
Qed.

(** C9 (counterexample): with the second and the third record each 6 bits
    from the first, on disjoint positions, the one group holds all three
    records, yet the second and the third are 12 bits apart: similarity
    81.25, below the threshold 90. *)
Lemma group_members_not_mutually_similar :
  (images <$> findDuplicates fan) = [fan] ∧
  calculateSimilarity (ones_between 0 6) (ones_between 6 12) = 81.25%float ∧
  ¬ pairwise_similar 90 fan.
Proof.
  split; [vm_compute; reflexivity|]. split; [vm_compute; reflexivity|].
  intros Hall.
  assert (Hge : (90 <=? calculateSimilarity (ones_between 0 6)
                         (ones_between 6 12))%float = true).
  { apply (Hall {| group_hash := ones_between 0 0; images := fan |}
                (sample_image 1 (ones_between 0 6))
                (sample_image 2 (ones_between 6 12))).
    - vm_compute. left.
    - right. left.
    - right. right. left. }
  vm_compute in Hge. discriminate Hge.
Qed.

(** C9 (amended): every member of a returned group is within the threshold of
    the seed of that group; two members need not be within the threshold of
    each other, but with the threshold 90 of the source and fingerprints of
    64 bits, any two members of a group have similarity at least 81.25
    (they differ in at most 12 bits). *)
Theorem group_similarity (imageList : list ImageWithHash) :
  Forall (fun img => String.length (hash img) = 64) imageList ->
  ∀ g, g ∈ findDuplicates imageList ->
    (∃ seed ms, images g = seed :: ms ∧
       ∀ m, m ∈ images g ->
         (90 <=? calculateSimilarity (hash seed) (hash m))%float = true) ∧
    (∀ a b, a ∈ images g -> b ∈ images g ->
       (81.25 <=? calculateSimilarity (hash a) (hash b))%float = true).
Proof.
  intros Hlen g Hg. unfold findDuplicates, findDuplicatesAt in Hg.
  apply list_elem_of_fmap in Hg as (c & -> & Hc).
  pose proof (clusters_ok 90 imageList) as Hok. rewrite Forall_forall in Hok.
  pose proof (Hok c Hc) as Hokc.
  destruct Hokc as (i & x & ms & Heq & _ & Hsim & Hsub).
  rewrite Forall_forall in Hlen. rewrite Forall_forall in Hsim.
  assert (H64 : ∀ e, e ∈ members c -> String.length (hash e.2) = 64).
  { intros e He. apply Hlen. eapply list_elem_of_lookup_2.
    eapply cluster_ok_lookup; [exact (Hok c Hc)|done]. }
  assert (Hnear : ∀ e, e ∈ members c -> differences (hash x) (hash e.2) ≤ 6).
  { intros e He. rewrite Heq in He. simpl in He.
    apply elem_of_cons in He as [->|He]; simpl.
    - rewrite differences_refl. lia.
    - apply within_90; [|by apply Hsim].
      apply (H64 (i, x)). rewrite Heq. by left. }
  assert (Hx : String.length (hash x) = 64).
  { apply (H64 (i, x)). rewrite Heq. by left. }
  split.
  - exists x, ms.*2. split; [by rewrite Heq|]. intros m Hm.
    apply list_elem_of_fmap in Hm as (e & -> & He).
    apply within_90; [done|]. by apply Hnear.
  - intros a b Ha Hb.
    apply list_elem_of_fmap in Ha as (ea & -> & Hea).
    apply list_elem_of_fmap in Hb as (eb & -> & Heb).
    apply within_81; [by apply H64|].
    pose proof (differences_triangle (hash x) (hash ea.2) (hash eb.2)) as Htri.
    pose proof (Hnear ea Hea). pose proof (Hnear eb Heb).
    rewrite Hx, (H64 ea Hea) in Htri. specialize (Htri eq_refl). lia.
Qed.

Lemma group_similarity_witness :
  (81.25 <=? calculateSimilarity (ones_between 0 6) (ones_between 6 12))%float
  = true.
Proof.
  destruct (group_similarity fan ltac:(repeat constructor)
              {| group_hash := ones_between 0 0; images := fan |}
              ltac:(vm_compute; left)) as [_ Hpair].
  apply (Hpair (sample_image 1 (ones_between 0 6))
               (sample_image 2 (ones_between 6 12))).
  - right. left.
  - right. right. left.
Defined.

(** ** The batch handler *)

Section Batch.
Variable decode : File -> Decoded.

(** One file that fails to load rejects the whole loop. *)
Lemma process_files_rejects imageFiles newImages n f :
  f ∈ imageFiles -> decode f = LoadError ->
  ∃ reason n', process_files decode imageFiles newImages n = (Rejected reason, n').
Proof.
  revert newImages n.
  induction imageFiles as [|f0 rest IH]; intros newImages n Hf Hfail.
  - by apply elem_of_nil in Hf.
  - cbn [process_files]. unfold await, createObjectURL, getImageInfo,
      generateImageHash, await, createObjectURL, resolve, reject.
    destruct (decode f0) as [|width height [grid|]] eqn:Hd; eauto.
    apply elem_of_cons in Hf as [->|Hf]; [congruence|]. by apply IH.
Qed.

(** When every file decodes and draws, the loop resolves with one record per
    file, in order. *)
Lemma process_files_resolves imageFiles newImages n :
  (∀ f, f ∈ imageFiles ->
     ∃ width height grid, decode f = Loaded width height (Some grid)) ->
  ∃ added n',
    process_files decode imageFiles newImages n = (Resolved (newImages ++ added), n') ∧
    Forall2 (processed_as decode) imageFiles added.
Proof.
  revert newImages n.
  induction imageFiles as [|f0 rest IH]; intros newImages n Hall.
  - exists [], n. split; [|constructor]. simpl. by rewrite app_nil_r.
  - destruct (Hall f0 ltac:(by left)) as (width & height & grid & Hd).
    cbn [process_files]. unfold await, createObjectURL, getImageInfo,
      generateImageHash, await, createObjectURL, resolve, reject.
    rewrite Hd.
    match goal with
    | |- context [process_files decode rest ?acc ?m] =>
        destruct (IH acc m) as (added & n' & Hrun & Hadded)
    end.
    { intros f Hf. apply Hall. by right. }
    eexists (_ :: added), n'. split.
    + rewrite Hrun. by rewrite <-app_assoc.
    + constructor; [|done]. split; [done|]. by exists width, height, grid.
Qed.
End Batch.

(** C2 (counterexample): in a batch of five files of which the third does not
    decode, the handler keeps none of the four images that do, reports no
    group although the first two are the same image, and shows a message
    that names no file. Without the third file the four images are kept and
    reported as one group (evenly filled canvases share the all-ones hash). *)
Lemma one_failure_aborts_the_batch :
  let s' := handleFiles sample_decode sample_batch initial_state in
  st_images s' = [] ∧ st_duplicateGroups s' = [] ∧
  st_alerts s' = ["Error processing some images"%string] ∧
  st_console s' = ["Failed to load image"%string] ∧
  (let good := List.filter (fun f => bool_decide (file_name f ≠ "c.png"%string))
                           sample_batch in
   let s'' := handleFiles sample_decode good initial_state in
   file_name ∘ file <$> st_images s'' = ["a.png"; "b.png"; "d.png"; "e.png"]%string ∧
   (fun g => file_name ∘ file <$> images g) <$> st_duplicateGroups s''
     = [["a.png"; "b.png"; "d.png"; "e.png"]%string]) ∧
  ¬ isolates_failures sample_decode sample_batch initial_state.
Proof.
  split; [vm_compute; reflexivity|]. split; [vm_compute; reflexivity|].
  split; [vm_compute; reflexivity|]. split; [vm_compute; reflexivity|].
  split; [split; vm_compute; reflexivity|].
  intros (Hkept & _ & _).
  destruct (Hkept (sample_file "a.png" ["010"%byte])) as (img & Himg & _).
  - vm_compute. left.
  - vm_compute. discriminate.
  - vm_compute in Himg. by apply elem_of_nil in Himg.
Qed.

(** C2 (amended): the batch is all or nothing. If an image of the batch fails
    to load, the handler leaves the images and the groups as they were (the
    images fingerprinted before the failure are not kept) and shows the one
    message "Error processing some images", which names no image. If every
    image of a non-empty batch decodes, each is fingerprinted and appended to
    the images, and the groups are recomputed over all of them. *)
Theorem batch_all_or_nothing (decode : File -> Decoded)
    (selectedFiles : list File) (s : State) :
  let imageFiles := List.filter is_image selectedFiles in
  let s' := handleFiles decode selectedFiles s in
  (∀ f, f ∈ imageFiles -> decode f = LoadError ->
     st_images s' = st_images s ∧
     st_duplicateGroups s' = st_duplicateGroups s ∧
     st_alerts s' = st_alerts s ++ ["Error processing some images"%string] ∧
     st_isProcessing s' = false) ∧
  (imageFiles ≠ [] ->
   (∀ f, f ∈ imageFiles ->
      ∃ width height grid, decode f = Loaded width height (Some grid)) ->
   ∃ newImages,
     Forall2 (processed_as decode) imageFiles newImages ∧
     st_images s' = st_images s ++ newImages ∧
     st_duplicateGroups s' = findDuplicates (st_images s ++ newImages) ∧
     st_alerts s' = st_alerts s ∧
     st_isProcessing s' = false).
Proof.
  intros imageFiles s'. subst s'. unfold handleFiles. fold imageFiles. split.
  - intros f Hf Hfail.
    destruct (process_files_rejects decode imageFiles [] (st_urls s) f Hf Hfail)
      as (reason & n' & Hrun).
    destruct imageFiles as [|f0 rest]; [by apply elem_of_nil in Hf|].
    by rewrite Hrun.
  - intros Hne Hall.
    destruct (process_files_resolves decode imageFiles [] (st_urls s) Hall)
      as (added & n' & Hrun & Hadded).
    destruct imageFiles as [|f0 rest]; [done|].
    rewrite Hrun. by exists added.
Qed.

Lemma batch_all_or_nothing_witness :
  st_images (handleFiles sample_decode sample_batch initial_state) = [] ∧
  st_alerts (handleFiles sample_decode sample_batch initial_state)
    = ["Error processing some images"%string].
Proof.
  destruct (batch_all_or_nothing sample_decode sample_batch initial_state)
    as [Hfail _].
  destruct (Hfail (sample_file "c.png" [])) as (Himg & _ & Halert & _).
  - vm_compute. right. right. left.
  - reflexivity.
  - split; [exact Himg|exact Halert].
Defined.

(** * Further properties *)

(** ** When the clusterer reports a group, and which records it leaves out *)

Lemma ForallOrdPairs_lookup {A} (R : A -> A -> Prop) (l : list A) :
  ForallOrdPairs R l <->
  ∀ i j x y, i < j -> l !! i = Some x -> l !! j = Some y -> R x y.
Proof.
  induction l as [|a l IH].
  - split; [|constructor]. intros _ i j x y _ Hi. by rewrite lookup_nil in Hi.
  - destruct IH as [IH1 IH2]. split.
    + intros Hfop. inversion Hfop as [|? ? Hhead Htail]; subst.
      intros i j x y Hij Hi Hj. destruct j as [|j]; [lia|].
      destruct i as [|i]; simpl in *.
      * simplify_eq. rewrite List.Forall_forall in Hhead.
        apply Hhead, list_elem_of_In. by eapply list_elem_of_lookup_2.
      * apply (IH1 Htail i j); [lia|done|done].
    + intros Hall. constructor.
      * apply List.Forall_forall. intros y Hy%list_elem_of_In.
        apply list_elem_of_lookup in Hy as [j Hj].
        by apply (Hall 0 (S j) a y); [lia| |].
      * apply IH2. intros i j x y Hij Hi Hj.
        by apply (Hall (S i) (S j) x y); [lia| |].
Qed.

Lemma entries_lookup l i x : l !! i = Some x -> entries l !! i = Some (i, x).
Proof. intros Hi. unfold entries. by rewrite list_lookup_imap, Hi. Qed.

Lemma entries_lookup_inv l i e : entries l !! i = Some e -> e.1 = i ∧ l !! i = Some e.2.
Proof.
  unfold entries. rewrite list_lookup_imap. intros He.
  destruct (l !! i) as [x|]; simplify_eq/=. done.
Qed.

(** The clusterer reports no group exactly when no record is within the
    threshold of a later record. *)
Theorem no_groups_iff_no_pair (T : float) (imageList : list ImageWithHash) :
  findDuplicatesAt T imageList = [] <->
  ∀ i j x y, i < j ->
    imageList !! i = Some x -> imageList !! j = Some y ->
    (T <=? calculateSimilarity (hash x) (hash y))%float = false.
Proof.
  unfold findDuplicatesAt. split.
  - intros Hnil%fmap_nil_inv i j x y Hij Hi Hj.
    assert (Hap : ForallOrdPairs (apart T) (entries imageList)).
    { apply Run_empty_apart with ∅ (clusters T imageList);
        [apply clusters_run|done|apply entries_NoDup|].
      intros e _. apply not_elem_of_empty. }
    rewrite ForallOrdPairs_lookup in Hap.
    specialize (Hap i j (i, x) (j, y) Hij (entries_lookup _ _ _ Hi)
                  (entries_lookup _ _ _ Hj)).
    by apply not_true_is_false.
  - intros Hall.
    rewrite (apart_Run_empty T _ _ _ (clusters_run T imageList)); [done|].
    apply ForallOrdPairs_lookup. intros i j e1 e2 Hij H1 H2.
    apply entries_lookup_inv in H1 as [_ H1].
    apply entries_lookup_inv in H2 as [_ H2].
    unfold apart. rewrite (Hall i j _ _ Hij H1 H2). done.
Qed.

Lemma StronglySorted_NoDup_lt (l : list nat) : StronglySorted lt l -> NoDup l.
Proof.
  induction 1 as [|a l _ IH Hall]; constructor; [|done].
  intros Ha. rewrite Forall_forall in Hall. specialize (Hall a Ha). lia.
Qed.

(** Entries of a list with distinct positions are told apart by position. *)
Lemma sublist_fst_inj {A B} (l : list (A * B)) (e e' : A * B) :
  NoDup l.*1 -> e' ∈ l -> e ∈ l -> e'.1 = e.1 -> e' = e.
Proof.
  induction l as [|a l IH]; intros Hnd He' He Heq.
  - by apply elem_of_nil in He.
  - rewrite fmap_cons in Hnd. apply NoDup_cons in Hnd as [Ha Hnd].
    apply elem_of_cons in He' as [->|He'], He as [->|He]; try done.
    + exfalso. apply Ha. rewrite Heq. apply list_elem_of_fmap. by exists e.
    + exfalso. apply Ha. rewrite <-Heq. apply list_elem_of_fmap. by exists e'.
    + by apply IH.
Qed.

Section Unique.
Variable T : float.

(** Two entries that a run neither found processed nor put in a group are
    not within the threshold of each other. *)
Lemma Run_left_out_apart todo P out :
  StronglySorted lt todo.*1 -> Run T todo P out ->
  ∀ e1 e2, e1 ∈ todo -> e2 ∈ todo -> e1.1 < e2.1 ->
    e1.1 ∉ P -> e2.1 ∉ P ->
    e1.1 ∉ grouped out -> e2.1 ∉ grouped out ->
    apart T e1 e2.
Proof.
  intros Hs Hrun. revert Hs.
  induction Hrun as [P|i x rest P out Hin _ IH
                    |i x rest P ms out Hout Hms Hne Hrun IH
                    |i x rest P out Hout Hms Hrun IH];
    intros Hs e1 e2 He1 He2 Hlt Hp1 Hp2 Hg1 Hg2.
  - by apply elem_of_nil in He1.
  - rewrite fmap_cons in Hs. apply StronglySorted_cons in Hs as [_ Hs].
    apply elem_of_cons in He1 as [->|He1]; [done|].
    apply elem_of_cons in He2 as [->|He2]; [done|].
    by apply IH.
  - rewrite fmap_cons in Hs. apply StronglySorted_cons in Hs as [Hhead Hs].
    rewrite Forall_forall in Hhead. rewrite grouped_cons in Hg1, Hg2.
    simpl in Hg1, Hg2.
    rewrite not_elem_of_cons, not_elem_of_app in Hg1, Hg2.
    destruct Hg1 as (Hne1 & Hm1 & Hg1), Hg2 as (Hne2 & Hm2 & Hg2).
    apply elem_of_cons in He1 as [->|He1]; [done|].
    apply elem_of_cons in He2 as [->|He2]; [done|].
    apply IH; try done.
    + rewrite !not_elem_of_union, elem_of_singleton, elem_of_list_to_set. done.
    + rewrite !not_elem_of_union, elem_of_singleton, elem_of_list_to_set. done.
  - rewrite fmap_cons in Hs. apply StronglySorted_cons in Hs as [Hhead Hs].
    rewrite Forall_forall in Hhead.
    assert (Hafter : ∀ e, e ∈ rest -> i < e.1).
    { intros e He. apply Hhead, list_elem_of_fmap. by exists e. }
    apply elem_of_cons in He2 as [->|He2].
    { apply elem_of_cons in He1 as [->|He1]; [simpl in Hlt; lia|].
      specialize (Hafter e1 He1). simpl in Hlt. lia. }
    apply elem_of_cons in He1 as [->|He1].
    + intros Hsim. eapply (filter_nil_not_elem_of _ _ e2 Hms); [|done]. done.
    + apply IH; try done.
      * rewrite not_elem_of_union, elem_of_singleton.
        specialize (Hafter e1 He1). split; [lia|done].
      * rewrite not_elem_of_union, elem_of_singleton.
        specialize (Hafter e2 He2). split; [lia|done].
Qed.

(** Two entries with the same hash, each within the threshold of itself,
    that a run did not find processed end up in one cluster. *)
Lemma Run_same_hash todo P out :
  StronglySorted lt todo.*1 -> Run T todo P out ->
  ∀ e1 e2, e1 ∈ todo -> e2 ∈ todo -> e1.1 < e2.1 ->
    e1.1 ∉ P -> e2.1 ∉ P ->
    hash e1.2 = hash e2.2 ->
    (T <=? calculateSimilarity (hash e1.2) (hash e1.2))%float = true ->
    ∃ c, c ∈ out ∧ e1 ∈ members c ∧ e2 ∈ members c.
Proof.
  intros Hs Hrun. revert Hs.
  induction Hrun as [P|i x rest P out Hin _ IH
                    |i x rest P ms out Hout Hms Hne Hrun IH
                    |i x rest P out Hout Hms Hrun IH];
    intros Hs e1 e2 He1 He2 Hlt Hp1 Hp2 Hhash Hself;
    try (rewrite fmap_cons in Hs; apply StronglySorted_cons in Hs as [Hhead Hs];
         rewrite Forall_forall in Hhead;
         assert (Hafter : ∀ e, e ∈ rest -> i < e.1)
           by (intros e He; apply Hhead, list_elem_of_fmap; by exists e)).
  - by apply elem_of_nil in He1.
  - apply elem_of_cons in He1 as [->|He1]; [done|].
    apply elem_of_cons in He2 as [->|He2]; [done|].
    destruct (IH Hs e1 e2) as (c & Hc & H1 & H2); try done. eauto.
  - apply elem_of_cons in He2 as [->|He2].
    { apply elem_of_cons in He1 as [->|He1]; [simpl in Hlt; lia|].
      specialize (Hafter e1 He1). simpl in Hlt. lia. }
    apply elem_of_cons in He1 as [->|He1].
    + eexists. split; [by left|]. simpl. split; [by left|]. right.
      subst ms. apply list_elem_of_filter. split; [|done].
      split; [done|]. simpl in Hhash, Hself. by rewrite <-Hhash.
    + destruct (decide (is_match T x P e1)) as [[_ Hm]|Hn].
      * eexists. split; [by left|]. simpl. subst ms. split; right;
          apply list_elem_of_filter; (split; [|done]); split; try done.
        by rewrite <-Hhash.
      * assert (Hn2 : ¬ is_match T x P e2).
        { intros [_ Hm]. apply Hn. split; [done|]. by rewrite Hhash. }
        assert (Hout' : ∀ e, e ∈ rest -> ¬ is_match T x P e -> e.1 ∉ P ->
                  e.1 ∉ {[i]} ∪ P ∪ list_to_set ms.*1).
        { intros e He Hne' Hpe.
          rewrite !not_elem_of_union, elem_of_singleton, elem_of_list_to_set.
          specialize (Hafter e He). split; [split; [lia|done]|].
          intros (e' & Heq & He')%list_elem_of_fmap. subst ms.
          apply list_elem_of_filter in He' as [[_ Hm'] He'].
          apply Hne'. split; [done|].
          assert (e' = e) as ->; [|done].
          apply (sublist_fst_inj rest); try done.
          by apply StronglySorted_NoDup_lt. }
        destruct (IH Hs e1 e2) as (c & Hc & H1 & H2); try done; eauto.
        exists c. split; [by right|done].
  - apply elem_of_cons in He2 as [->|He2].
    { apply elem_of_cons in He1 as [->|He1]; [simpl in Hlt; lia|].
      specialize (Hafter e1 He1). simpl in Hlt. lia. }
    apply elem_of_cons in He1 as [->|He1].
    + exfalso. eapply (filter_nil_not_elem_of _ _ e2 Hms); [|done].
      split; [done|]. simpl in Hhash, Hself. by rewrite <-Hhash.
    + apply IH; try done.
      * rewrite not_elem_of_union, elem_of_singleton.
        specialize (Hafter e1 He1). split; [lia|done].
      * rewrite not_elem_of_union, elem_of_singleton.
        specialize (Hafter e2 He2). split; [lia|done].
Qed.
End Unique.

(** Two records that are both left out of every group are not within the
    threshold of each other: the images reported as unique are mutually
    distinct at the threshold. *)
Theorem left_out_records_apart (T : float) (imageList : list ImageWithHash)
    i j x y :
  i < j -> imageList !! i = Some x -> imageList !! j = Some y ->
  i ∉ concat (positions T imageList) ->
  j ∉ concat (positions T imageList) ->
  (T <=? calculateSimilarity (hash x) (hash y))%float = false.
Proof.
  intros Hij Hi Hj Hgi Hgj. unfold positions in Hgi, Hgj.
  rewrite <-grouped_concat in Hgi, Hgj. apply not_true_is_false.
  apply (Run_left_out_apart T (entries imageList) ∅ (clusters T imageList)
           (entries_sorted imageList) (clusters_run T imageList)
           (i, x) (j, y)); try done.
  - by apply elem_of_entries.
  - by apply elem_of_entries.
Qed.

Lemma left_out_records_apart_witness :
  (95 <=? calculateSimilarity (ones_between 0 0) (ones_between 0 4))%float
  = false.
Proof.
  apply (left_out_records_apart 95 [sample_image 0 (ones_between 0 0);
                                    sample_image 1 (ones_between 0 4)]
           0 1 (sample_image 0 (ones_between 0 0))
               (sample_image 1 (ones_between 0 4)));
    try reflexivity; try lia; vm_compute; apply not_elem_of_nil.
Defined.

(** Records with the same 64-bit fingerprint are always reported together:
    [findDuplicates] returns a group that holds both. *)
Theorem same_fingerprint_same_group (imageList : list ImageWithHash) i j x y :
  i < j -> imageList !! i = Some x -> imageList !! j = Some y ->
  hash x = hash y -> String.length (hash x) = 64 ->
  ∃ k g ps,
    findDuplicates imageList !! k = Some g ∧
    positions 90 imageList !! k = Some ps ∧
    x ∈ images g ∧ y ∈ images g ∧ i ∈ ps ∧ j ∈ ps.
Proof.
  intros Hij Hi Hj Hhash Hlen.
  destruct (Run_same_hash 90 (entries imageList) ∅ (clusters 90 imageList)
              (entries_sorted imageList) (clusters_run 90 imageList)
              (i, x) (j, y)) as (c & Hc & H1 & H2); try done.
  - by apply elem_of_entries.
  - by apply elem_of_entries.
  - simpl. apply within_90; [done|]. rewrite differences_refl. lia.
  - apply list_elem_of_lookup in Hc as [k Hk].
    exists k, (group_of c), (members c).*1.
    unfold findDuplicates, findDuplicatesAt, positions.
    rewrite !list_lookup_fmap, Hk. simpl. repeat split.
    + apply list_elem_of_fmap. by exists (i, x).
    + apply list_elem_of_fmap. by exists (j, y).
    + apply list_elem_of_fmap. by exists (i, x).
    + apply list_elem_of_fmap. by exists (j, y).
Qed.

Lemma same_fingerprint_same_group_witness :
  ∃ k g ps,
    findDuplicates [sample_image 0 (ones_between 0 9);
                    sample_image 1 (ones_between 20 40);
                    sample_image 2 (ones_between 0 9)] !! k = Some g ∧
    positions 90 [sample_image 0 (ones_between 0 9);
                  sample_image 1 (ones_between 20 40);
                  sample_image 2 (ones_between 0 9)] !! k = Some ps ∧
    sample_image 0 (ones_between 0 9) ∈ images g ∧
    sample_image 2 (ones_between 0 9) ∈ images g ∧ 0 ∈ ps ∧ 2 ∈ ps.
Proof.
  apply (same_fingerprint_same_group _ 0 2); try reflexivity. lia.
Defined.

Lemma filter_all {A} (P : A -> Prop) `{∀ x, Decision (P x)} (l : list A) :
  Forall P l -> filter P l = l.
Proof.
  induction 1 as [|a l Ha _ IH]; [done|]. by rewrite filter_cons_True, IH.
Qed.

Lemma Run_all_processed T todo P out :
  Run T todo P out -> (∀ e, e ∈ todo -> e.1 ∈ P) -> out = [].
Proof.
  induction 1 as [P|i x rest P out Hin _ IH|i x rest P ms out Hout Hms Hne _ IH
                 |i x rest P out Hout Hms _ IH]; intros Hall.
  - done.
  - apply IH. intros e He. apply Hall. by right.
  - exfalso. apply Hout, (Hall (i, x)). by left.
  - exfalso. apply Hout, (Hall (i, x)). by left.
Qed.

Lemma entries_snd l : (entries l).*2 = l.
Proof.
  unfold entries. apply list_eq. intros i.
  rewrite list_lookup_fmap, list_lookup_imap. by destruct (l !! i).
Qed.

(** If every later record is within the threshold of the first record, the
    clusterer returns exactly one group, and it holds all the records in
    input order. *)
Theorem all_near_first_one_group (T : float) (x : ImageWithHash)
    (rest : list ImageWithHash) :
  rest ≠ [] ->
  (∀ y, y ∈ rest ->
     (T <=? calculateSimilarity (hash x) (hash y))%float = true) ->
  findDuplicatesAt T (x :: rest) =
    [{| group_hash := hash x; images := x :: rest |}].
Proof.
  intros Hne Hall. unfold findDuplicatesAt.
  pose proof (clusters_run T (x :: rest)) as Hrun.
  pose proof (entries_NoDup (x :: rest)) as Hnd.
  pose proof (entries_snd (x :: rest)) as Hsnd.
  unfold entries in Hrun, Hnd, Hsnd. rewrite imap_cons in Hrun, Hnd, Hsnd.
  set (tl := imap (pair ∘ S) rest) in *.
  assert (Htl : tl ≠ []).
  { intros Heq. apply Hne. apply (f_equal length) in Heq.
    unfold tl in Heq. rewrite length_imap in Heq. by destruct rest. }
  assert (Hmatch : Forall (is_match T x ∅) tl).
  { apply Forall_forall. intros e He. split; [set_solver|].
    apply Hall. injection Hsnd as Hsnd. rewrite <-Hsnd.
    apply list_elem_of_fmap. by exists e. }
  inversion Hrun as [|? ? ? ? ? Hin|? ? ? ? ms out' Hout Hms Hms_ne Hrest
                    |? ? ? ? ? Hout Hms]; subst.
  - set_solver.
  - rewrite filter_all in Hrest by exact Hmatch.
    rewrite filter_all by exact Hmatch.
    rewrite (Run_all_processed _ _ _ _ Hrest).
    + simpl. f_equal. unfold group_of. simpl. f_equal.
      injection Hsnd as Hsnd. by rewrite Hsnd.
    + intros e He. apply elem_of_union. right. apply elem_of_list_to_set.
      apply list_elem_of_fmap. by exists e.
  - rewrite filter_all in Hms by exact Hmatch. done.
Qed.

Lemma all_near_first_one_group_witness :
  findDuplicatesAt 90 fan =
    [{| group_hash := ones_between 0 0; images := fan |}].
Proof.
  apply (all_near_first_one_group 90 (sample_image 0 (ones_between 0 0))
           [sample_image 1 (ones_between 0 6);
            sample_image 2 (ones_between 6 12)]); [done|].
  intros y Hy. apply elem_of_cons in Hy as [->|Hy]; [vm_compute; reflexivity|].
  apply elem_of_cons in Hy as [->|Hy]; [vm_compute; reflexivity|].
  by apply elem_of_nil in Hy.
Defined.

(** ** The similarity test *)

(** On 64-bit fingerprints the test [similarity >= 90] of [findDuplicates]
    holds exactly when the fingerprints differ in at most 6 bits. *)
Theorem duplicate_iff_six_bits (a b : string) :
  String.length a = 64 -> String.length b = 64 ->
  (90 <=? calculateSimilarity a b)%float = true <-> hamming a b ≤ 6.
Proof.
  intros Ha Hb. rewrite <-differences_hamming by congruence. by apply within_90.
Qed.

Lemma duplicate_iff_six_bits_witness :
  (90 <=? calculateSimilarity (ones_between 0 0) (ones_between 0 6))%float
    = true ∧
  ¬ (90 <=? calculateSimilarity (ones_between 0 0) (ones_between 0 7))%float
    = true.
Proof.
  split.
  - apply (duplicate_iff_six_bits (ones_between 0 0) (ones_between 0 6));
      [reflexivity|reflexivity|]. vm_compute. lia.
  - intros H.
    apply (duplicate_iff_six_bits (ones_between 0 0) (ones_between 0 7)) in H;
      [|reflexivity|reflexivity]. vm_compute in H. lia.
Defined.

(** The similarity of two hashes of equal length does not depend on their
    order. *)
Theorem similarity_symmetric (a b : string) :
  String.length a = String.length b ->
  calculateSimilarity a b = calculateSimilarity b a.
Proof.
  intros Hlen. unfold calculateSimilarity.
  by rewrite (differences_sym a b), Hlen.
Qed.

Lemma similarity_symmetric_witness :
  calculateSimilarity (ones_between 0 4) (ones_between 0 7)
  = calculateSimilarity (ones_between 0 7) (ones_between 0 4).
Proof. apply similarity_symmetric. reflexivity. Defined.

(** ** The fingerprint, whatever the pixel data *)

Lemma grayscale_length_bounded n pixels :
  length pixels ≤ n -> length (grayscale pixels) = (length pixels + 3) / 4.
Proof.
  revert pixels. induction n as [|n IH]; intros pixels Hn.
  - destruct pixels; [done|simpl in Hn; lia].
  - destruct pixels as [|r [|g [|b [|a rest]]]]; try done.
    cbn [grayscale length]. rewrite IH by (simpl in Hn; lia).
    replace (S (S (S (S (length rest)))) + 3) with (length rest + 3 + 1 * 4)
      by lia.
    rewrite Nat.div_add by lia. lia.
Qed.

(** The hash has one character for every started group of four bytes of the
    pixel data (64 for the 256 bytes of the 8x8 canvas), and each character
    is ['0'] or ['1']. *)
Theorem hash_shape (pixels : list byte) :
  String.length (hashPixels pixels) = (length pixels + 3) / 4 ∧
  (length pixels = 256 -> String.length (hashPixels pixels) = 64) ∧
  ∀ i c, String.get i (hashPixels pixels) = Some c ->
    c = "0"%char ∨ c = "1"%char.
Proof.
  assert (Hlen : String.length (hashPixels pixels) = (length pixels + 3) / 4).
  { unfold hashPixels. rewrite hash_bits_list, length_of_list_ascii, length_fmap.
    by apply (grayscale_length_bounded (length pixels)). }
  split; [done|]. split.
  - intros H256. rewrite Hlen, H256. reflexivity.
  - intros i c. unfold hashPixels.
    rewrite hash_bits_list, get_of_list_ascii, list_lookup_fmap.
    destruct (grayscale pixels !! i) as [g|]; [|done]. simpl.
    intros [= <-]. unfold hash_bit. destruct (_ <=? _)%float; auto.
Qed.

(** The alpha channel plays no part: two canvases with the same red, green
    and blue values sample by sample have the same hash. *)
Theorem hash_ignores_alpha (grid1 grid2 : list RGBA) :
  Forall2 (fun p q => red p = red q ∧ green p = green q ∧ blue p = blue q)
          grid1 grid2 ->
  hashPixels (imageData grid1) = hashPixels (imageData grid2).
Proof.
  intros Hsame. rewrite !hashPixels_bits.
  assert (Hlum : luminance <$> grid1 = luminance <$> grid2).
  { induction Hsame as [|p q grid1 grid2 (Hr & Hg & Hb) _ IH]; [done|].
    rewrite !fmap_cons, IH. f_equal. unfold luminance. by rewrite Hr, Hg, Hb. }
  unfold mean_luminance. by rewrite Hlum, (Forall2_length _ _ _ Hsame).
Qed.

Lemma hash_ignores_alpha_witness :
  hashPixels (imageData
    (replicate 64 {| red := "000"%byte; green := "000"%byte;
                     blue := "005"%byte; alpha := "000"%byte |}))
  = hashPixels (imageData dark_blue).
Proof.
  apply hash_ignores_alpha. unfold dark_blue, solid.
  apply Forall2_replicate. done.
Defined.

(** A canvas filled evenly with any of the 256 gray levels hashes to all
    ones, so any two evenly gray images, black and white included, have
    similarity 100 and are reported as duplicates: whenever two records of
    the list carry the hashes of evenly gray canvases, [findDuplicates]
    returns a group that holds both. *)
Theorem gray_canvases_are_duplicates (level1 level2 : byte) :
  hashPixels (imageData (solid level1 level1 level1)) = all_ones ∧
  calculateSimilarity (hashPixels (imageData (solid level1 level1 level1)))
                      (hashPixels (imageData (solid level2 level2 level2)))
    = 100%float ∧
  ∀ (imageList : list ImageWithHash) i j x y,
    i < j -> imageList !! i = Some x -> imageList !! j = Some y ->
    (hash x = hashPixels (imageData (solid level1 level1 level1)) ∧
     hash y = hashPixels (imageData (solid level2 level2 level2))) ∨
    (hash x = hashPixels (imageData (solid level2 level2 level2)) ∧
     hash y = hashPixels (imageData (solid level1 level1 level1))) ->
    ∃ k g ps,
      findDuplicates imageList !! k = Some g ∧
      positions 90 imageList !! k = Some ps ∧
      x ∈ images g ∧ y ∈ images g ∧ i ∈ ps ∧ j ∈ ps.
Proof.
  assert (Hones : ∀ level,
    hashPixels (imageData (solid level level level)) = all_ones).
  { intros level. destruct level; vm_compute; reflexivity. }
  split; [apply Hones|]. split; [rewrite !Hones; vm_compute; reflexivity|].
  intros imageList i j x y Hij Hi Hj Hhashes. rewrite !Hones in Hhashes.
  assert (Hx : hash x = all_ones) by tauto.
  assert (Hy : hash y = all_ones) by tauto.
  destruct (Run_same_hash 90 (entries imageList) ∅ (clusters 90 imageList)
              (entries_sorted imageList) (clusters_run 90 imageList)
              (i, x) (j, y)) as (c & Hc & H1 & H2); try done.
  - by apply elem_of_entries.
  - by apply elem_of_entries.
  - simpl. congruence.
  - simpl. rewrite Hx. vm_compute. reflexivity.
  - apply list_elem_of_lookup in Hc as [k Hk].
    exists k, (group_of c), (members c).*1.
    unfold findDuplicates, findDuplicatesAt, positions.
    rewrite !list_lookup_fmap, Hk. simpl. repeat split.
    + apply list_elem_of_fmap. by exists (i, x).
    + apply list_elem_of_fmap. by exists (j, y).
    + apply list_elem_of_fmap. by exists (i, x).
    + apply list_elem_of_fmap. by exists (j, y).
Qed.

Lemma gray_canvases_are_duplicates_witness :
  let black_image :=
    sample_image 0 (hashPixels (imageData (solid "000"%byte "000"%byte "000"%byte))) in
  let white_image :=
    sample_image 1 (hashPixels (imageData (solid "255"%byte "255"%byte "255"%byte))) in
  ∃ k g ps,
    findDuplicates [black_image; white_image] !! k = Some g ∧
    positions 90 [black_image; white_image] !! k = Some ps ∧
    black_image ∈ images g ∧ white_image ∈ images g ∧ 0 ∈ ps ∧ 1 ∈ ps.
Proof.
  intros black_image white_image.
  destruct (gray_canvases_are_duplicates "000"%byte "255"%byte)
    as (_ & _ & Hgrouped).
  apply (Hgrouped [black_image; white_image] 0 1 black_image white_image);
    [lia|reflexivity|reflexivity|]. left. split; reflexivity.
Defined.

(** ** The batch handler, further *)

Lemma filter_is_image_idem (selectedFiles : list File) :
  List.filter is_image (List.filter is_image selectedFiles)
  = List.filter is_image selectedFiles.
Proof.
  induction selectedFiles as [|f fs IH]; [done|]. simpl.
  destruct (is_image f) eqn:Hf; simpl; [|done]. by rewrite Hf, IH.
Qed.

(** Files that are not images play no part in a selection: the handler does
    what it would do on the image files alone; and when no selected file is
    an image, it only shows "Please select image files" and leaves everything
    else, the processing flag included, as it was. *)
Theorem non_images_ignored (decode : File -> Decoded)
    (selectedFiles : list File) (s : State) :
  handleFiles decode selectedFiles s
    = handleFiles decode (List.filter is_image selectedFiles) s ∧
  (List.filter is_image selectedFiles = [] ->
   handleFiles decode selectedFiles s =
     {| st_images := st_images s;
        st_duplicateGroups := st_duplicateGroups s;
        st_isProcessing := st_isProcessing s;
        st_alerts := st_alerts s ++ ["Please select image files"%string];
        st_console := st_console s;
        st_urls := st_urls s |}).
Proof.
  split.
  - unfold handleFiles. by rewrite filter_is_image_idem.
  - intros Hnone. unfold handleFiles. by rewrite Hnone.
Qed.

Section FirstFailure.
Variable decode : File -> Decoded.

(** The loop stops at the first file that does not make it through
    [getImageInfo] and [generateImageHash]: the files after it are not
    looked at. *)
Lemma process_files_first_failure good f rest newImages n reason :
  Forall (fun g => ∃ width height grid,
            decode g = Loaded width height (Some grid)) good ->
  (decode f = LoadError ∧ reason = "Failed to load image"%string) ∨
  ((∃ width height, decode f = Loaded width height None) ∧
   reason = "Failed to get canvas context"%string) ->
  ∃ n', process_files decode (good ++ f :: rest) newImages n
        = (Rejected reason, n').
Proof.
  intros Hgood Hfail. revert newImages n.
  induction Hgood as [|g good (width & height & grid & Hg) _ IH];
    intros newImages n; cbn [app process_files];
    unfold await, createObjectURL, getImageInfo, generateImageHash, await,
      createObjectURL, resolve, reject.
  - destruct Hfail as [[-> ->]|[(width & height & ->) ->]]; eauto.
  - rewrite Hg. apply IH.
Qed.
End FirstFailure.

(** The first image file that fails to load, or for which no 2D context is
    available, decides the outcome: the images and the groups stay as they
    were, the reason logged is that file's, and the files after it have no
    effect. *)
Theorem first_failure_decides (decode : File -> Decoded)
    (selectedFiles good rest : list File) (f : File) (s : State)
    (reason : string) :
  List.filter is_image selectedFiles = good ++ f :: rest ->
  Forall (fun g => ∃ width height grid,
            decode g = Loaded width height (Some grid)) good ->
  (decode f = LoadError ∧ reason = "Failed to load image"%string) ∨
  ((∃ width height, decode f = Loaded width height None) ∧
   reason = "Failed to get canvas context"%string) ->
  let s' := handleFiles decode selectedFiles s in
  st_images s' = st_images s ∧
  st_duplicateGroups s' = st_duplicateGroups s ∧
  st_isProcessing s' = false ∧
  st_alerts s' = st_alerts s ++ ["Error processing some images"%string] ∧
  st_console s' = st_console s ++ [reason].
Proof.
  intros Hfiles Hgood Hfail s'. subst s'. unfold handleFiles. rewrite Hfiles.
  destruct (process_files_first_failure decode good f rest [] (st_urls s)
              reason Hgood Hfail) as [n' ->].
  by destruct good.
Qed.

Lemma first_failure_decides_witness :
  st_console (handleFiles sample_decode sample_batch initial_state)
  = ["Failed to load image"%string].
Proof.
  apply (first_failure_decides sample_decode sample_batch
           [sample_file "a.png" ["010"%byte]; sample_file "b.png" ["010"%byte]]
           [sample_file "d.png" ["200"%byte]; sample_file "e.png" ["100"%byte]]
           (sample_file "c.png" []) initial_state "Failed to load image").
  - reflexivity.
  - repeat constructor; by exists 8, 8, (solid "010"%byte "010"%byte "010"%byte).
  - left. split; reflexivity.
Defined.

(** ** The component across its handlers *)

(** A loop that resolves has made one record of every file. *)
Lemma process_files_resolved decode imageFiles newImages n out n' :
  process_files decode imageFiles newImages n = (Resolved out, n') ->
  ∃ added, out = newImages ++ added ∧
           Forall2 (processed_as decode) imageFiles added.
Proof.
  revert newImages n. induction imageFiles as [|f0 rest IH]; intros newImages n.
  - simpl. intros [= <- <-]. exists []. split; [by rewrite app_nil_r|constructor].
  - cbn [process_files]. unfold await, createObjectURL, getImageInfo,
      generateImageHash, await, createObjectURL, resolve, reject.
    destruct (decode f0) as [|width height [grid|]] eqn:Hd; try done.
    intros Hrun. destruct (IH _ _ Hrun) as (added & -> & Hadded).
    eexists (_ :: added). split; [by rewrite <-app_assoc|].
    constructor; [|done]. split; [done|]. by exists width, height, grid.
Qed.

Lemma findDuplicates_nil : findDuplicates [] = [].
Proof. reflexivity. Qed.

Lemma processed_hashes decode imageFiles added :
  (∀ f width height grid,
     decode f = Loaded width height (Some grid) -> length grid = 64) ->
  Forall2 (processed_as decode) imageFiles added ->
  Forall (fun img => String.length (hash img) = 64) added.
Proof.
  intros Hcanvas. induction 1 as [|g img ? ? Himg _ IH]; [done|].
  constructor; [|done].
  destruct Himg as (_ & width & height & grid & Hd & ->).
  rewrite hashPixels_bits, length_of_list_ascii, !length_fmap. eauto.
Qed.

Section Sessions.
Variable decode : File -> Decoded.

(** What every handler keeps: the groups shown are those of the images held,
    and the processing flag is off. *)
Lemma act_keeps s a :
  st_duplicateGroups s = findDuplicates (st_images s) ∧ st_isProcessing s = false ->
  st_duplicateGroups (act decode s a)
    = findDuplicates (st_images (act decode s a)) ∧
  st_isProcessing (act decode s a) = false.
Proof.
  intros [Hgroups Hflag]. destruct a as [selectedFiles|index|]; simpl.
  - unfold handleFiles. destruct (List.filter is_image selectedFiles); [done|].
    by destruct (process_files _ _ _ _) as [[newImages|reason] n].
  - unfold removeImage. by destruct (st_images s !! index).
  - done.
Qed.

Lemma fold_keeps actions s :
  st_duplicateGroups s = findDuplicates (st_images s) ∧ st_isProcessing s = false ->
  let s' := fold_left (act decode) actions s in
  st_duplicateGroups s' = findDuplicates (st_images s') ∧
  st_isProcessing s' = false.
Proof.
  revert s. induction actions as [|a actions IH]; intros s Hs; [done|].
  simpl. apply IH. by apply act_keeps.
Qed.

(** Fingerprints of the images held, when every canvas the decoder yields
    has 64 samples. *)
Lemma act_keeps_hashes s a :
  (∀ f width height grid,
     decode f = Loaded width height (Some grid) -> length grid = 64) ->
  Forall (fun img => String.length (hash img) = 64) (st_images s) ->
  Forall (fun img => String.length (hash img) = 64) (st_images (act decode s a)).
Proof.
  intros Hcanvas Hs. destruct a as [selectedFiles|index|]; simpl.
  - unfold handleFiles.
    destruct (List.filter is_image selectedFiles) as [|f0 fs] eqn:Hfiles; [done|].
    destruct (process_files _ _ _ _) as [[newImages|reason] n] eqn:Hrun; [|done].
    simpl.
    destruct (process_files_resolved decode _ _ _ _ _ Hrun)
      as (added & -> & Hadded).
    simpl. apply Forall_app. split; [done|].
    by apply (processed_hashes decode (f0 :: fs)).
  - unfold removeImage. destruct (st_images s !! index); [|done]. simpl.
    by apply Forall_delete.
  - constructor.
Qed.
End Sessions.

Lemma session_state_keeps decode actions :
  st_duplicateGroups (session decode actions)
    = findDuplicates (st_images (session decode actions)) ∧
  st_isProcessing (session decode actions) = false.
Proof. unfold session. by apply fold_keeps. Qed.

(** After any sequence of selections, removals and resets, the groups shown
    are exactly those of the images held (also after a batch that failed or
    a removal that threw), and the processing flag is off. *)
Theorem session_groups_current (decode : File -> Decoded)
    (actions : list Action) :
  st_duplicateGroups (session decode actions)
    = findDuplicates (st_images (session decode actions)) ∧
  st_isProcessing (session decode actions) = false.
Proof. unfold session. by apply fold_keeps. Qed.

(** If every canvas that the decoder yields has 64 samples, every image held
    after any sequence of actions carries a fingerprint of 64 characters. *)
Theorem session_fingerprints (decode : File -> Decoded)
    (actions : list Action) :
  (∀ f width height grid,
     decode f = Loaded width height (Some grid) -> length grid = 64) ->
  Forall (fun img => String.length (hash img) = 64)
         (st_images (session decode actions)).
Proof.
  intros Hcanvas. unfold session.
  assert (Hgen : ∀ s,
    Forall (fun img => String.length (hash img) = 64) (st_images s) ->
    Forall (fun img => String.length (hash img) = 64)
           (st_images (fold_left (act decode) actions s))).
  { induction actions as [|a actions IH]; intros s Hs; [done|].
    simpl. apply IH. by apply act_keeps_hashes. }
  apply Hgen. constructor.
Qed.

Lemma session_fingerprints_witness :
  Forall (fun img => String.length (hash img) = 64)
    (st_images (session sample_decode
       [SelectFiles sample_batch;
        SelectFiles [sample_file "d.png" ["200"%byte]];
        Remove 3; Remove 0])).
Proof.
  apply session_fingerprints. intros f width height grid.
  unfold sample_decode. destruct (file_content f) as [|b [|]]; try done.
  intros [= _ _ <-]. reflexivity.
Defined.

(** ** The counts shown *)

Lemma duplicateCount_from groups acc :
  fold_left (fun acc g => (acc + Z.of_nat (length (images g)) - 1)%Z) groups acc
  = (acc + Z.of_nat (length (concat (images <$> groups)))
     - Z.of_nat (length groups))%Z.
Proof.
  revert acc. induction groups as [|g groups IH]; intros acc; csimpl; [lia|].
  rewrite IH, length_app. lia.
Qed.

(** Sizes of what [findDuplicatesAt] returns: the groups together hold at
    least two records each and at most all the records. *)
Lemma groups_sizes T imageList :
  2 * length (findDuplicatesAt T imageList)
    ≤ length (concat (images <$> findDuplicatesAt T imageList)) ∧
  length (concat (images <$> findDuplicatesAt T imageList)) ≤ length imageList.
Proof.
  split.
  - unfold findDuplicatesAt. pose proof (clusters_ok T imageList) as Hok.
    induction Hok as [|c cs (i & x & ms & -> & Hne & _) _ IH]; [done|].
    csimpl. rewrite length_app. rewrite !length_fmap in *.
    destruct ms; [done|]. simpl. lia.
  - assert (Hlen : length (concat (images <$> findDuplicatesAt T imageList))
                   = length (grouped (clusters T imageList))).
    { unfold findDuplicatesAt. generalize (clusters T imageList). intros cs.
      induction cs as [|c cs IH]; [done|].
      rewrite grouped_cons. csimpl. rewrite !length_app, !length_fmap, <-IH.
      done. }
    rewrite Hlen, <-(length_seq (length imageList) 0).
    apply submseteq_length, NoDup_submseteq.
    + apply Run_NoDup with T (entries imageList) ∅;
        [apply entries_NoDup|apply clusters_run].
    + intros j Hj.
      destruct (Run_grouped T _ _ _ j (clusters_run T imageList) Hj) as [Hin _].
      by rewrite entries_fst in Hin.
Qed.

(** The counts of the statistics bar, after any sequence of actions: the
    duplicate count is at least the number of groups and is 0 exactly when
    there is no group; the unique count is at least the number of groups,
    and at least 1 as soon as an image is held; the two add up to the number
    of images. *)
Theorem counts_consistent (decode : File -> Decoded) (actions : list Action) :
  let s := session decode actions in
  (Z.of_nat (length (st_duplicateGroups s)) ≤ duplicateCount s)%Z ∧
  (duplicateCount s = 0%Z <-> st_duplicateGroups s = []) ∧
  (Z.of_nat (length (st_duplicateGroups s)) ≤ uniqueCount s)%Z ∧
  (st_images s ≠ [] -> (1 ≤ uniqueCount s)%Z) ∧
  (uniqueCount s + duplicateCount s = Z.of_nat (length (st_images s)))%Z.
Proof.
  intros s. subst s.
  destruct (fold_keeps decode actions
              {| st_images := []; st_duplicateGroups := [];
                 st_isProcessing := false; st_alerts := []; st_console := [];
                 st_urls := 0 |}) as [Hgroups _]; [done|].
  fold (session decode actions) in Hgroups.
  unfold uniqueCount, duplicateCount. rewrite duplicateCount_from, Hgroups.
  destruct (groups_sizes 90 (st_images (session decode actions))) as [H2 Hall].
  fold findDuplicates in H2, Hall.
  set (groups := findDuplicates (st_images (session decode actions))) in *.
  split; [lia|]. split.
  - split; [|intros ->; reflexivity]. intros H0.
    destruct groups; [done|]. simpl in *. lia.
  - split; [lia|]. split; [|lia]. intros Hne.
    destruct (st_images (session decode actions)) eqn:Himgs; [done|].
    destruct groups; simpl in *; lia.
Qed.

(** ** Favorites and recently used tools *)

(** Toggling a tool flips whether it is a favorite, leaves every other tool
    as it was, and keeps a list without repetitions free of repetitions. *)
Theorem toggleFavorite_flips (tool : string) (prev : list string) :
  isFavorite (toggleFavorite tool prev) tool = negb (isFavorite prev tool) ∧
  (∀ t, t ≠ tool ->
     isFavorite (toggleFavorite tool prev) t = isFavorite prev t) ∧
  (NoDup prev -> NoDup (toggleFavorite tool prev)).
Proof.
  unfold isFavorite, toggleFavorite.
  destruct (bool_decide (tool ∈ prev)) eqn:Hin.
  - apply bool_decide_eq_true in Hin. split; [|split].
    + simpl. apply bool_decide_eq_false.
      rewrite list_elem_of_filter. intros [Hne _]. done.
    + intros t Hne. apply bool_decide_ext.
      rewrite list_elem_of_filter. naive_solver.
    + apply NoDup_filter.
  - apply bool_decide_eq_false in Hin. split; [|split].
    + simpl. apply bool_decide_eq_true. set_solver.
    + intros t Hne. apply bool_decide_ext. set_solver.
    + intros Hnd. apply NoDup_app. split; [done|]. split; [set_solver|].
      apply NoDup_singleton.
Qed.

(** Toggling a tool twice gives back the same favorites: the same list when
    the tool was not a favorite, and otherwise a list with the same tools
    (the tool has moved to the end). *)
Theorem toggleFavorite_twice (tool : string) (prev : list string) :
  (∀ t, isFavorite (toggleFavorite tool (toggleFavorite tool prev)) t
        = isFavorite prev t) ∧
  (tool ∉ prev -> toggleFavorite tool (toggleFavorite tool prev) = prev).
Proof.
  assert (Hkeep : tool ∉ prev -> filter (fun t => t ≠ tool) prev = prev).
  { intros Hout. apply filter_all, Forall_forall. intros t Ht ->. done. }
  split.
  - intros t. unfold isFavorite, toggleFavorite. apply bool_decide_ext.
    destruct (bool_decide (tool ∈ prev)) eqn:Hin.
    + apply bool_decide_eq_true in Hin.
      rewrite bool_decide_eq_false_2
        by (rewrite list_elem_of_filter; intros [Hne _]; done).
      rewrite elem_of_app, list_elem_of_filter, list_elem_of_singleton.
      destruct (decide (t = tool)) as [->|Hne]; naive_solver.
    + apply bool_decide_eq_false in Hin.
      rewrite bool_decide_eq_true_2 by set_solver.
      rewrite list_elem_of_filter, elem_of_app, list_elem_of_singleton.
      split; [naive_solver|]. intros Ht. split; [|by left]. by intros ->.
  - intros Hout. unfold toggleFavorite.
    rewrite (bool_decide_eq_false_2 _ Hout).
    rewrite bool_decide_eq_true_2 by set_solver.
    rewrite filter_app, Hkeep by done.
    rewrite filter_cons_False by (intros H; by apply H). by rewrite app_nil_r.
Qed.

(** Opening a tool other than ['home'] puts it first among the recent tools,
    once; the list never exceeds six entries, the other entries are earlier
    ones in their earlier order, and a list without repetitions stays so.
    ['home'] is never recorded. *)
Theorem addRecent_front (tool : string) (prev : list string) :
  addRecent "home" prev = prev ∧
  (tool ≠ "home"%string ->
   ∃ others,
     addRecent tool prev = tool :: others ∧
     (tool ∉ others) ∧
     others `sublist_of` prev ∧
     length (addRecent tool prev) ≤ 6 ∧
     (NoDup prev -> NoDup (addRecent tool prev))).
Proof.
  split; [reflexivity|]. intros Hne. unfold addRecent, MAX_RECENT.
  rewrite bool_decide_eq_false_2 by done. cbn [take].
  exists (take 5 (filter (fun t => t ≠ tool) prev)).
  assert (Hsub : take 5 (filter (fun t => t ≠ tool) prev)
                 `sublist_of` filter (fun t => t ≠ tool) prev)
    by apply sublist_take.
  assert (Hout : tool ∉ take 5 (filter (fun t => t ≠ tool) prev)).
  { intros Hin. apply (sublist_subseteq _ _ Hsub) in Hin.
    apply list_elem_of_filter in Hin as [Hin _]. done. }
  split; [done|]. split; [done|]. split.
  { etrans; [exact Hsub|apply sublist_filter]. }
  split.
  { simpl. rewrite length_take. lia. }
  intros Hnd. apply NoDup_cons. split; [done|].
  apply (sublist_NoDup _ (filter (fun t => t ≠ tool) prev)); [|done].
  by apply NoDup_filter.
Qed.

Lemma addRecent_front_witness :
  ∃ others,
    addRecent "duplicate-finder"
      ["ocr"; "cropper"; "duplicate-finder"; "favicon"; "rotator";
       "watermark"]%string
    = "duplicate-finder"%string :: others ∧ length others = 5.
Proof.
  destruct (addRecent_front "duplicate-finder"
              ["ocr"; "cropper"; "duplicate-finder"; "favicon"; "rotator";
               "watermark"]%string) as [_ Hfront].
  destruct Hfront as (others & Heq & _); [done|].
  exists others. split; [exact Heq|].
  vm_compute in Heq. by injection Heq as <-.
Defined.

(** ** Adding images *)

Lemma Run_det T todo P out1 out2 :
  Run T todo P out1 -> Run T todo P out2 -> out1 = out2.
Proof.
  intros Hrun. revert out2.
  induction Hrun as [P|i x rest P out Hin _ IH|i x rest P ms out Hout Hms Hne _ IH
                    |i x rest P out Hout Hms _ IH];
    intros out2 Hrun2; inversion Hrun2; subst; try done; try congruence.
  - by apply IH.
  - f_equal. by apply IH.
  - by apply IH.
Qed.

Lemma filter_agree {A} (P Q : A -> Prop) `{∀ x, Decision (P x)}
    `{∀ x, Decision (Q x)} (l : list A) :
  (∀ x, x ∈ l -> P x <-> Q x) -> filter P l = filter Q l.
Proof.
  induction l as [|a l IH]; intros Hagree; [done|].
  rewrite !filter_cons.
  assert (Ha : P a <-> Q a) by (apply Hagree; by left).
  rewrite IH by (intros x Hx; apply Hagree; by right).
  destruct (decide (P a)), (decide (Q a)); tauto.
Qed.

Section Extend.
Variable T : float.

(** A run over more entries, appended after the others, finds every cluster
    of the shorter run again, in the same order, each with the same seed and
    the same members followed by members taken from the added entries. *)
Lemma Run_extend todo extra P1 out1 :
  Run T todo P1 out1 ->
  ∀ P2 out2,
    NoDup (todo ++ extra).*1 ->
    Run T (todo ++ extra) P2 out2 ->
    (∀ j, j ∈ todo.*1 -> j ∈ P1 <-> j ∈ P2) ->
    ∃ picked, picked `sublist_of` out2 ∧
      Forall2 (fun c1 c2 => cluster_hash c1 = cluster_hash c2 ∧
                            members c1 `prefix_of` members c2) out1 picked.
Proof.
  induction 1 as [P1|i x rest P1 out1 Hin _ IH
                 |i x rest P1 ms out1 Hout Hms Hne _ IH
                 |i x rest P1 out1 Hout Hms _ IH];
    intros P2 out2 Hnd Hrun2 Hagree.
  - exists []. split; [apply sublist_nil_l|constructor].
  - cbn [app] in Hrun2, Hnd. rewrite fmap_cons in Hnd.
    apply NoDup_cons in Hnd as [_ Hnd].
    assert (Hin2 : i ∈ P2) by (apply Hagree; [by left|done]).
    inversion Hrun2; subst; try done.
    apply (IH P2 out2); try done. intros j Hj. apply Hagree. by right.
  - cbn [app] in Hrun2, Hnd. rewrite fmap_cons in Hnd.
    apply NoDup_cons in Hnd as [Hfresh Hnd].
    assert (Hout2 : i ∉ P2) by (rewrite <-Hagree; [done|by left]).
    assert (Hsame : filter (is_match T x P2) rest = filter (is_match T x P1) rest).
    { apply filter_agree. intros e He. unfold is_match.
      rewrite (Hagree e.1); [done|]. right. apply list_elem_of_fmap. by exists e. }
    inversion Hrun2 as [|? ? ? ? ? Hin2|? ? ? ? ms2 out2' _ Hms2 Hne2 Hrest2
                       |? ? ? ? ? _ Hms2 Hrest2]; subst; try done.
    + rewrite filter_app, Hsame in Hrest2.
      destruct (IH _ out2' Hnd Hrest2) as (picked & Hsub & Hall).
      { intros j Hj. rewrite !elem_of_union, !elem_of_list_to_set, fmap_app,
          elem_of_app.
        assert (Hj' : j ∈ P1 <-> j ∈ P2)
          by (apply Hagree; by right).
        split; [tauto|]. intros [[?|?]|[?|Hex]]; try tauto.
        exfalso. rewrite fmap_app in Hnd. apply NoDup_app in Hnd as (_ & Hdisj & _).
        apply (Hdisj j Hj). apply list_elem_of_fmap in Hex as (e & -> & He).
        apply list_elem_of_filter in He as [_ He].
        apply list_elem_of_fmap. by exists e. }
      eexists (_ :: picked). split; [by apply sublist_skip|].
      constructor; [|done]. simpl. split; [done|].
      rewrite filter_app, Hsame. apply prefix_cons. by eexists.
    + exfalso. rewrite filter_app, Hsame in Hms2.
      apply app_eq_nil in Hms2 as [Hnil _]. done.
  - cbn [app] in Hrun2, Hnd. rewrite fmap_cons in Hnd.
    apply NoDup_cons in Hnd as [Hfresh Hnd].
    assert (Hout2 : i ∉ P2) by (rewrite <-Hagree; [done|by left]).
    assert (Hsame : filter (is_match T x P2) rest = filter (is_match T x P1) rest).
    { apply filter_agree. intros e He. unfold is_match.
      rewrite (Hagree e.1); [done|]. right. apply list_elem_of_fmap. by exists e. }
    assert (Hdisj : ∀ j, j ∈ rest.*1 -> j ∉ extra.*1).
    { rewrite fmap_app in Hnd. apply NoDup_app in Hnd as (_ & Hdisj & _). done. }
    inversion Hrun2 as [|? ? ? ? ? Hin2|? ? ? ? ms2 out2' _ Hms2 Hne2 Hrest2
                       |? ? ? ? ? _ Hms2 Hrest2]; subst; try done.
    + rewrite filter_app, Hsame, Hms in Hrest2. simpl in Hrest2.
      destruct (IH _ out2' Hnd Hrest2) as (picked & Hsub & Hall).
      { intros j Hj. rewrite !elem_of_union, !elem_of_list_to_set.
        assert (Hj' : j ∈ P1 <-> j ∈ P2) by (apply Hagree; by right).
        split; [tauto|]. intros [[?|?]|Hex]; try tauto.
        exfalso. apply (Hdisj j Hj).
        apply list_elem_of_fmap in Hex as (e & -> & He).
        apply list_elem_of_filter in He as [_ He].
        apply list_elem_of_fmap. by exists e. }
      exists picked. split; [by apply sublist_cons|done].
    + apply (IH _ out2 Hnd Hrest2).
      intros j Hj. rewrite !elem_of_union.
      assert (Hj' : j ∈ P1 <-> j ∈ P2) by (apply Hagree; by right). tauto.
Qed.
End Extend.

Lemma sublist_map {A B} (f : A -> B) (k l : list A) :
  k `sublist_of` l -> f <$> k `sublist_of` f <$> l.
Proof. induction 1; csimpl; by constructor. Qed.

Lemma entries_app l new :
  entries (l ++ new) = entries l ++ imap (fun n => pair (length l + n)) new.
Proof. unfold entries. by rewrite imap_app. Qed.

(** What adding records at the end does to the groups. *)
Lemma extend_groups T l new :
  ∃ picked, picked `sublist_of` findDuplicatesAt T (l ++ new) ∧
    Forall2 (fun g g' => group_hash g' = group_hash g ∧
                         images g `prefix_of` images g')
            (findDuplicatesAt T l) picked.
Proof.
  pose proof (clusters_run T (l ++ new)) as Hrun2.
  pose proof (entries_NoDup (l ++ new)) as Hnd.
  rewrite entries_app in Hrun2, Hnd.
  destruct (Run_extend T _ _ _ _ (clusters_run T l) _ _ Hnd Hrun2)
    as (picked & Hsub & Hall); [done|].
  exists (group_of <$> picked). split.
  - unfold findDuplicatesAt. by apply sublist_map.
  - unfold findDuplicatesAt. apply Forall2_fmap.
    eapply Forall2_impl; [exact Hall|]. intros c1 c2 [Hhash [k Hk]]. simpl.
    split; [done|]. exists k.*2. by rewrite Hk, fmap_app.
Qed.

(** Adding images at the end of the list keeps every group: each group of
    the shorter list is found again, in the same order, with the same hash
    and first member and the same members in the same order, possibly
    followed by some of the added images. *)
Theorem more_images_keep_groups (T : float) (imageList new : list ImageWithHash) :
  ∃ picked, picked `sublist_of` findDuplicatesAt T (imageList ++ new) ∧
    Forall2 (fun g g' => group_hash g' = group_hash g ∧
                         images g `prefix_of` images g')
            (findDuplicatesAt T imageList) picked.
Proof. apply extend_groups. Qed.

(** Selecting further files, at any point of a session, never removes or
    shrinks a group that is shown: whether the batch is accepted or
    abandoned, each group shown before is shown after with the same first
    member, its members in place and possibly more after them. *)
Theorem selection_keeps_groups (decode : File -> Decoded)
    (actions : list Action) (selectedFiles : list File) :
  let s := session decode actions in
  let s' := handleFiles decode selectedFiles s in
  ∃ picked, picked `sublist_of` st_duplicateGroups s' ∧
    Forall2 (fun g g' => group_hash g' = group_hash g ∧
                         images g `prefix_of` images g')
            (st_duplicateGroups s) picked.
Proof.
  intros s s'.
  assert (Hsame : ∃ picked, picked `sublist_of` st_duplicateGroups s ∧
    Forall2 (fun g g' => group_hash g' = group_hash g ∧
                         images g `prefix_of` images g')
            (st_duplicateGroups s) picked).
  { exists (st_duplicateGroups s). split; [done|].
    apply Forall_Forall2_diag, Forall_forall. intros g _. done. }
  destruct (session_state_keeps decode actions) as [Hgroups _].
  fold s in Hgroups. subst s'. unfold handleFiles.
  destruct (List.filter is_image selectedFiles); [done|].
  destruct (process_files _ _ _ _) as [[newImages|reason] n]; [|done].
  simpl. rewrite Hgroups. apply extend_groups.
Qed.

(** ** Removing an image *)

Section Removal.
Variable T : float.

(** A run depends on the processed set only through the positions it still
    has to visit. *)
Lemma Run_agree todo P out :
  Run T todo P out ->
  ∀ P', (∀ j, j ∈ todo.*1 -> j ∈ P <-> j ∈ P') -> Run T todo P' out.
Proof.
  induction 1 as [P|i x rest P out Hin _ IH|i x rest P ms out Hout Hms Hne _ IH
                 |i x rest P out Hout Hms _ IH]; intros P' Hagree.
  - constructor.
  - apply Run_skip; [apply Hagree; [by left|done]|].
    apply IH. intros j Hj. apply Hagree. by right.
  - assert (Hsame : filter (is_match T x P') rest = filter (is_match T x P) rest).
    { apply filter_agree. intros e He. unfold is_match.
      rewrite (Hagree e.1); [done|]. right. apply list_elem_of_fmap. by exists e. }
    apply Run_group; [rewrite <-Hagree; [done|by left]|by rewrite Hsame|done|].
    apply IH. intros j Hj. rewrite !elem_of_union.
    assert (j ∈ P <-> j ∈ P') by (apply Hagree; by right). tauto.
  - assert (Hsame : filter (is_match T x P') rest = filter (is_match T x P) rest).
    { apply filter_agree. intros e He. unfold is_match.
      rewrite (Hagree e.1); [done|]. right. apply list_elem_of_fmap. by exists e. }
    apply Run_unique; [rewrite <-Hagree; [done|by left]|by rewrite Hsame|].
    apply IH. intros j Hj. rewrite !elem_of_union.
    assert (j ∈ P <-> j ∈ P') by (apply Hagree; by right). tauto.
Qed.

(** Leaving out an entry that the run put in no cluster does not change the
    clusters. *)
Lemma Run_delete pre e post :
  ∀ P out,
    NoDup (pre ++ e :: post).*1 ->
    Run T (pre ++ e :: post) P out -> e.1 ∉ grouped out ->
    Run T (pre ++ post) P out.
Proof.
  induction pre as [|a pre IH]; intros P out Hnd Hrun Hfree; cbn [app] in *.
  - rewrite fmap_cons in Hnd. apply NoDup_cons in Hnd as [Hfresh _].
    inversion Hrun as [|? ? ? ? ? Hin Hrest|? ? ? ? ms out' Hout Hms Hne Hrest
                      |? ? ? ? ? Hout Hms Hrest]; subst.
    + done.
    + exfalso. apply Hfree. rewrite grouped_cons. simpl. by left.
    + apply (Run_agree _ _ _ Hrest). intros j Hj. rewrite elem_of_union.
      rewrite elem_of_singleton. split; [|tauto].
      intros [->|?]; [done|done].
  - rewrite fmap_cons in Hnd. apply NoDup_cons in Hnd as [Hfresh Hnd].
    inversion Hrun as [|? ? ? ? ? Hin Hrest|? ? ? ? ms out' Hout Hms Hne Hrest
                      |? ? ? ? ? Hout Hms Hrest]; subst.
    + apply Run_skip; [done|]. by apply IH.
    + rewrite grouped_cons in Hfree. simpl in Hfree.
      rewrite not_elem_of_cons, not_elem_of_app in Hfree.
      destruct Hfree as (_ & Hms_free & Hfree).
      assert (Hno : ¬ is_match T x P e).
      { intros Hm. apply Hms_free. apply list_elem_of_fmap. exists e.
        split; [done|]. apply list_elem_of_filter. split; [done|].
        apply elem_of_app. right. by left. }
      assert (Hsame : filter (is_match T x P) (pre ++ e :: post)
                      = filter (is_match T x P) (pre ++ post)).
      { by rewrite !filter_app, filter_cons_False. }
      apply (Run_group T i x (pre ++ post) P
               (filter (is_match T x P) (pre ++ e :: post)) out');
        [done|exact Hsame|exact Hne|]. by apply IH.
    + assert (Hnil : filter (is_match T x P) (pre ++ post) = []).
      { rewrite filter_app in Hms |- *. rewrite filter_cons in Hms.
        apply app_eq_nil in Hms as [-> Hms].
        destruct (decide (is_match T x P e)); [done|]. by rewrite Hms. }
      apply Run_unique; try done. by apply IH.
Qed.

(** Renaming the positions, without merging two of them, does not change
    the groups. *)
Lemma Run_reindex (f : nat -> nat) (dom : nat -> Prop) todo P out :
  (∀ i j, dom i -> dom j -> f i = f j -> i = j) ->
  Run T todo P out ->
  (∀ j, j ∈ todo.*1 -> dom j) -> (∀ j, j ∈ P -> dom j) ->
  ∃ out', Run T (prod_map f id <$> todo) (set_map f P) out' ∧
          group_of <$> out' = group_of <$> out.
Proof.
  intros Hinj.
  assert (Hmem : ∀ (Q : gset nat) j, dom j -> (∀ j', j' ∈ Q -> dom j') ->
            f j ∈ (set_map f Q : gset nat) <-> j ∈ Q).
  { intros Q j Hj HQ. rewrite elem_of_map. split.
    - intros (j' & Heq & Hj'). by rewrite (Hinj j j' Hj (HQ j' Hj') Heq).
    - intros Hin. by exists j. }
  assert (Hfilter : ∀ x (Q : gset nat) rest,
            (∀ j, j ∈ rest.*1 -> dom j) -> (∀ j, j ∈ Q -> dom j) ->
            filter (is_match T x (set_map f Q)) (prod_map f id <$> rest)
            = prod_map f id <$> filter (is_match T x Q) rest).
  { intros x Q rest Hrest HQ. induction rest as [|e rest IHr]; [done|].
    assert (IHr' := IHr (fun j Hj => Hrest j
                   ltac:(rewrite fmap_cons; by right))). clear IHr.
    assert (He : is_match T x (set_map f Q) (prod_map f id e)
                 <-> is_match T x Q e).
    { unfold is_match. destruct e as [j y]. simpl.
      rewrite Hmem; [done| |done]. apply Hrest. rewrite fmap_cons. by left. }
    rewrite fmap_cons, !filter_cons.
    destruct (decide (is_match T x (set_map f Q) (prod_map f id e))),
      (decide (is_match T x Q e)); try tauto;
      first [exact IHr' | rewrite fmap_cons; f_equal; exact IHr']. }
  induction 1 as [P|i x rest P out Hin _ IH|i x rest P ms out Hout Hms Hne _ IH
                 |i x rest P out Hout Hms _ IH]; intros Htodo HP.
  - exists []. split; [constructor|done].
  - destruct IH as (out' & Hrun' & Hgroups);
      [intros j Hj; apply Htodo; rewrite fmap_cons; by right|done|].
    exists out'. split; [|done]. rewrite fmap_cons. apply Run_skip; [|done].
    simpl. by apply elem_of_map_2.
  - assert (Hdi : dom i) by (apply Htodo; rewrite fmap_cons; by left).
    assert (Hrest : ∀ j, j ∈ rest.*1 -> dom j)
      by (intros j Hj; apply Htodo; rewrite fmap_cons; by right).
    assert (HP' : ∀ j, j ∈ {[i]} ∪ P ∪ list_to_set ms.*1 -> dom j).
    { intros j. rewrite !elem_of_union, elem_of_singleton, elem_of_list_to_set.
      intros [[->|?]|Hj]; auto. apply Hrest. subst ms.
      apply list_elem_of_fmap in Hj as (e & -> & He).
      apply list_elem_of_filter in He as [_ He].
      apply list_elem_of_fmap. by exists e. }
    destruct IH as (out' & Hrun' & Hgroups); [done|done|].
    assert (Hf : filter (is_match T x (set_map f P)) (prod_map f id <$> rest)
                 = prod_map f id <$> ms)
      by (rewrite Hms; by apply Hfilter).
    exists ({| cluster_hash := hash x;
               members := (f i, x) :: (prod_map f id <$> ms) |} :: out').
    split.
    + rewrite fmap_cons.
      apply (Run_group T (f i) x (prod_map f id <$> rest) (set_map f P)
               (prod_map f id <$> ms) out').
      * by rewrite Hmem.
      * symmetry. exact Hf.
      * intros Hnil%fmap_nil_inv. done.
      * replace ({[f i]} ∪ set_map f P
                 ∪ list_to_set (prod_map f id <$> ms).*1)
          with (set_map f ({[i]} ∪ P ∪ list_to_set ms.*1) : gset nat);
          [done|].
        apply set_eq. intros j.
        rewrite !elem_of_union, !elem_of_map, elem_of_singleton,
          !elem_of_list_to_set. split.
        -- intros (j' & -> & Hj'). rewrite !elem_of_union in Hj'.
           rewrite elem_of_singleton, elem_of_list_to_set in Hj'.
           destruct Hj' as [[->|Hj']|Hj']; [by left; left|left; right; eauto|].
           right. apply list_elem_of_fmap in Hj' as (e & -> & He).
           apply list_elem_of_fmap. exists (prod_map f id e).
           split; [by destruct e|]. apply list_elem_of_fmap. by exists e.
        -- intros [[->|(j' & -> & Hj')]|Hj'].
           ++ exists i. split; [done|set_solver].
           ++ exists j'. split; [done|set_solver].
           ++ apply list_elem_of_fmap in Hj' as (e' & -> & He').
              apply list_elem_of_fmap in He' as (e & -> & He).
              exists e.1. split; [by destruct e|].
              apply elem_of_union. right. apply elem_of_list_to_set.
              apply list_elem_of_fmap. by exists e.
    + rewrite !fmap_cons, Hgroups. f_equal. unfold group_of. simpl. f_equal.
      f_equal. rewrite <-list_fmap_compose. apply list_fmap_ext. by intros ? [].
  - assert (Hdi : dom i) by (apply Htodo; rewrite fmap_cons; by left).
    assert (Hrest : ∀ j, j ∈ rest.*1 -> dom j)
      by (intros j Hj; apply Htodo; rewrite fmap_cons; by right).
    destruct IH as (out' & Hrun' & Hgroups); [done| |].
    { intros j. rewrite elem_of_union, elem_of_singleton. intros [->|?]; auto. }
    assert (Hf : filter (is_match T x (set_map f P)) (prod_map f id <$> rest)
                 = []).
    { etrans; [by apply Hfilter|].
      change (prod_map f id <$> filter (is_match T x P) rest
              = prod_map f id <$> []). f_equal. exact Hms. }
    exists out'. split; [|done]. rewrite fmap_cons.
    apply (Run_unique T (f i) x (prod_map f id <$> rest) (set_map f P) out').
    + by rewrite Hmem.
    + exact Hf.
    + replace ({[f i]} ∪ set_map f P)
        with (set_map f ({[i]} ∪ P) : gset nat); [done|].
      by rewrite set_map_union_L, set_map_singleton_L.
Qed.
End Removal.

(** The entries of a list with one record removed: those of the list, that
    record left out, the later positions moved down by one. *)
Lemma entries_delete l k :
  entries (delete k l)
  = prod_map (fun j => if decide (j < k) then j else pred j) id
      <$> delete k (entries l).
Proof.
  apply list_eq. intros i. unfold entries.
  rewrite list_lookup_fmap, list_lookup_imap.
  destruct (decide (i < k)) as [Hlt|Hge].
  - rewrite !list_lookup_delete_lt, list_lookup_imap by done.
    destruct (l !! i); simpl; [|done]. by rewrite decide_True.
  - rewrite !list_lookup_delete_ge, list_lookup_imap by lia.
    destruct (l !! S i); simpl; [|done]. by rewrite decide_False by lia.
Qed.

Lemma remove_left_out T l k :
  k ∉ concat (positions T l) ->
  findDuplicatesAt T (delete k l) = findDuplicatesAt T l.
Proof.
  intros Hfree. destruct (l !! k) as [x|] eqn:Hk; last first.
  { apply lookup_ge_None in Hk.
    assert (Hsame : delete k l = l).
    { apply list_eq. intros i. rewrite list_lookup_delete.
      destruct (decide (i < k)); [done|].
      rewrite !lookup_ge_None_2; [done|lia|lia]. }
    by rewrite Hsame. }
  unfold positions in Hfree. rewrite <-grouped_concat in Hfree.
  pose proof (clusters_run T l) as Hrun.
  pose proof (entries_NoDup l) as Hnd.
  pose proof (entries_lookup l k x Hk) as Hek.
  rewrite <-(take_drop_middle (entries l) k (k, x) Hek) in Hrun, Hnd.
  pose proof (Run_delete T _ _ _ _ _ Hnd Hrun Hfree) as Hrun'.
  rewrite <-delete_take_drop in Hrun'.
  destruct (Run_reindex T (fun j => if decide (j < k) then j else pred j)
              (fun j => j ≠ k) _ _ _ ltac:(intros i j Hi Hj Heq; simpl in *;
                 repeat case_decide; lia) Hrun')
    as (out' & Hout' & Hgroups).
  - intros j Hj Heq. subst j.
    rewrite fmap_app in Hnd. apply NoDup_app in Hnd as (_ & Hdisj & Hnd2).
    rewrite fmap_cons in Hnd2. apply NoDup_cons in Hnd2 as [Hk2 _].
    rewrite delete_take_drop, fmap_app in Hj.
    apply elem_of_app in Hj as [Hj|Hj]; [|done].
    apply (Hdisj k Hj). rewrite fmap_cons. by left.
  - intros j Hj. by apply elem_of_empty in Hj.
  - rewrite set_map_empty, <-entries_delete in Hout'.
    unfold findDuplicatesAt.
    by rewrite (Run_det T _ _ _ _ (clusters_run T (delete k l)) Hout').
Qed.

(** Removing a record that is in no group leaves the groups as they are. *)
Theorem removing_left_out_keeps_groups (T : float)
    (imageList : list ImageWithHash) (index : nat) :
  index ∉ concat (positions T imageList) ->
  findDuplicatesAt T (delete index imageList) = findDuplicatesAt T imageList.
Proof. apply remove_left_out. Qed.

Lemma removing_left_out_keeps_groups_witness :
  findDuplicatesAt 90 (delete 2 chain) = findDuplicatesAt 90 chain.
Proof.
  apply removing_left_out_keeps_groups. vm_compute.
  intros H. repeat (apply elem_of_cons in H as [H|H]; [done|]).
  by apply elem_of_nil in H.
Defined.

(** At any point of a session, removing an image that is shown in no group
    leaves the groups shown unchanged; the image list loses that one image. *)
Theorem removing_unique_image (decode : File -> Decoded)
    (actions : list Action) (index : nat) :
  let s := session decode actions in
  index < length (st_images s) ->
  index ∉ concat (positions 90 (st_images s)) ->
  ∃ s', removeImage index s = Some s' ∧
        st_images s' = delete index (st_images s) ∧
        st_duplicateGroups s' = st_duplicateGroups s.
Proof.
  intros s Hlt Hfree. unfold removeImage.
  destruct (lookup_lt_is_Some_2 _ _ Hlt) as [img ->].
  eexists. split; [done|]. simpl. split; [done|].
  destruct (session_state_keeps decode actions) as [Hgroups _].
  fold s in Hgroups. rewrite Hgroups. by apply remove_left_out.
Qed.

Lemma removing_unique_image_witness :
  ∃ s', removeImage 0 (session sample_decode
                         [SelectFiles [sample_file "a.png" ["010"%byte]]])
          = Some s' ∧
        st_images s' = [] ∧ st_duplicateGroups s' = [].
Proof.
  destruct (removing_unique_image sample_decode
              [SelectFiles [sample_file "a.png" ["010"%byte]]] 0)
    as (s' & Hrm & Himg & Hgr).
  - vm_compute. lia.
  - vm_compute. apply not_elem_of_nil.
  - exists s'. split; [exact Hrm|]. split.
    + rewrite Himg. vm_compute. reflexivity.
    + rewrite Hgr. vm_compute. reflexivity.
Defined.
